(** * WarpX: CKC finite-difference stencil, particle attribute schema and
      Breit-Wheeler pair generation functors

    Shallow embedding of
    - [Source/FieldSolver/FiniteDifferenceSolver/FiniteDifferenceAlgorithms/CartesianCKCAlgorithm.H]
    - [Source/Particles/WarpXParticleContainer.H] ([PIdx], [AddRealComp])
    - [Source/Particles/ElementaryProcess/QEDPairGeneration.H]

    Numeric models.  [amrex::Real] and [amrex::ParticleReal] are modelled
    twice.  The exact model takes them as the rationals [Q] (equality is
    [Qeq], written [==]): a division whose divisor is zero is a failure
    ([None]), and rounding, overflow and underflow do not exist; a
    theorem over it that rests on an arithmetic identity or on an
    inequality is a statement of exact arithmetic.  The
    module [Binary64] transcribes the stencil builder and the
    pair-generation functors over IEEE binary64 numbers, the [double] of
    the default build, rounding every operation; it is evaluated on
    concrete inputs to show where the code leaves exact arithmetic.  C++
    [int] indices are unbounded integers.  Reading or writing an array
    outside its bounds is undefined behaviour in C++ and is a failure
    ([None]) in the particle models. *)

From Stdlib Require Import PrimFloat QArith Qminmax Lqa Lia ZArith List.
From stdpp Require Import gmap strings list fin_maps functions.

Open Scope Q_scope.

(** ** Failure monad used for checked divisions *)

Module Checked.

Definition bind {A B : Type} (c : option A) (k : A -> option B) : option B :=
  match c with
  | Some x => k x
  | None => None
  end.

(** [a / b] as written in the source, failing on a zero divisor. *)
Definition div (a b : Q) : option Q :=
  if Qeq_bool b 0 then None else Some (a / b).

End Checked.

Notation "'let?' x ':=' c 'in' k" := (Checked.bind c (fun x => k))
  (at level 10, x name, c at level 100, k at level 200).
Notation "a // b" := (Checked.div a b) (at level 40, left associativity).

(** ** CartesianCKCAlgorithm.H *)

(** The two Cartesian builds selected by the preprocessor. *)
Inductive WARPX_DIM : Type :=
| WARPX_DIM_3D
| WARPX_DIM_XZ.

(** [amrex::Array4<amrex::Real>]: [F(i,j,k)]. *)
Definition Array4 : Type := Z -> Z -> Z -> Q.

Module CartesianCKCAlgorithm.

(** [std::max(a, b)]: returns [b] when [a < b], otherwise [a]. *)
Definition std_max (a b : Q) : Q :=
  if Qlt_le_dec a b then b else a.

(** [std::max({a, b, c})]: the first of the largest elements. *)
Definition std_max3 (a b c : Q) : Q := std_max (std_max a b) c.

(** [v[i] = x] on a vector that was resized beforehand. *)
Definition store (i : nat) (x : Q) (v : list Q) : list Q := <[i:=x]> v.

(** [InitializeStencilCoefficients]: [cell_size] is the [std::array] of the
    three spacings; the three vectors are passed by reference and returned
    updated.  [resize(6)] keeps the first six old entries and fills with
    zero; entry 5 is never assigned.  The quotient [inv_dx/delta], which
    the source writes twice in [(inv_dx/delta)*(inv_dx/delta)], is computed
    once ([qx]) and squared; [t] names the quotient inside [beta]; [fill]
    is the block of stores that follows the preprocessor branches. *)
Definition InitializeStencilCoefficients (dim : WARPX_DIM)
  (cell_size : Q * Q * Q)
  (stencil_coefs_x stencil_coefs_y stencil_coefs_z : list Q)
  : option (list Q * list Q * list Q) :=
  let '(cell_size0, cell_size1, cell_size2) := cell_size in
  let? inv_dx := 1 // cell_size0 in
  let? inv_dy := 1 // cell_size1 in
  let? inv_dz := 1 // cell_size2 in
  let fill (alphax alphay alphaz betaxy betaxz betayx betayz betazx betazy
            gammax gammay gammaz : Q) :=
    let stencil_coefs_x := resize 6 0 stencil_coefs_x in
    let stencil_coefs_x := store 0 inv_dx stencil_coefs_x in
    let stencil_coefs_x := store 1 alphax stencil_coefs_x in
    let stencil_coefs_x := store 2 betaxy stencil_coefs_x in
    let stencil_coefs_x := store 3 betaxz stencil_coefs_x in
    let stencil_coefs_x := store 4 (gammax * inv_dx) stencil_coefs_x in
    let stencil_coefs_y := resize 6 0 stencil_coefs_y in
    let stencil_coefs_y := store 0 inv_dy stencil_coefs_y in
    let stencil_coefs_y := store 1 alphay stencil_coefs_y in
    let stencil_coefs_y := store 2 betayz stencil_coefs_y in
    let stencil_coefs_y := store 3 betayx stencil_coefs_y in
    let stencil_coefs_y := store 4 (gammay * inv_dy) stencil_coefs_y in
    let stencil_coefs_z := resize 6 0 stencil_coefs_z in
    let stencil_coefs_z := store 0 inv_dz stencil_coefs_z in
    let stencil_coefs_z := store 1 alphaz stencil_coefs_z in
    let stencil_coefs_z := store 2 betazx stencil_coefs_z in
    let stencil_coefs_z := store 3 betazy stencil_coefs_z in
    let stencil_coefs_z := store 4 (gammaz * inv_dz) stencil_coefs_z in
    Some (stencil_coefs_x, stencil_coefs_y, stencil_coefs_z) in
  match dim with
  | WARPX_DIM_3D =>
      let delta := std_max3 inv_dx inv_dy inv_dz in
      let? qx := inv_dx // delta in
      let? qy := inv_dy // delta in
      let? qz := inv_dz // delta in
      let rx := qx * qx in
      let ry := qy * qy in
      let rz := qz * qz in
      let? t := (rx * ry * rz) // (ry * rz + rz * rx + rx * ry) in
      let beta := 0.125 * (1 - t) in
      let betaxy := ry * beta * inv_dx in
      let betaxz := rz * beta * inv_dx in
      let betayx := rx * beta * inv_dy in
      let betayz := rz * beta * inv_dy in
      let betazx := rx * beta * inv_dz in
      let betazy := ry * beta * inv_dz in
      let? inv_r_fac := 1 // (ry * rz + rz * rx + rx * ry) in
      let gammax := ry * rz * (0.0625 - 0.125 * ry * rz * inv_r_fac) in
      let gammay := rx * rz * (0.0625 - 0.125 * rx * rz * inv_r_fac) in
      let gammaz := rx * ry * (0.0625 - 0.125 * rx * ry * inv_r_fac) in
      let alphax := (1 - 2 * ry * beta - 2 * rz * beta - 4 * gammax) * inv_dx in
      let alphay := (1 - 2 * rx * beta - 2 * rz * beta - 4 * gammay) * inv_dy in
      let alphaz := (1 - 2 * rx * beta - 2 * ry * beta - 4 * gammaz) * inv_dz in
      fill alphax alphay alphaz betaxy betaxz betayx betayz betazx betazy
           gammax gammay gammaz
  | WARPX_DIM_XZ =>
      let delta := std_max inv_dx inv_dz in
      let? qx := inv_dx // delta in
      let? qz := inv_dz // delta in
      let rx := qx * qx in
      let rz := qz * qz in
      let beta := 0.125 in
      let betaxz := beta * rz * inv_dx in
      let betazx := beta * rx * inv_dz in
      let alphax := (1 - 2 * rz * beta) * inv_dx in
      let alphaz := (1 - 2 * rx * beta) * inv_dz in
      let gammax := 0 in
      let gammay := 0 in
      let gammaz := 0 in
      let betaxy := 0 in
      let betazy := 0 in
      let betayx := 0 in
      let betayz := 0 in
      let alphay := 0 in
      fill alphax alphay alphaz betaxy betaxz betayx betayz betazx betazy
           gammax gammay gammaz
  end.

(** [coefs[n]] on the raw coefficient pointer. *)
Definition coef (coefs : list Q) (n : nat) : Q := nth n coefs 0.

Definition UpwardDx (dim : WARPX_DIM) (F : Array4)
  (coefs_x : list Q) (n_coefs_x : Z) (i j k : Z) : Q :=
  let alphax := coef coefs_x 1 in
  let betaxz := coef coefs_x 3 in
  match dim with
  | WARPX_DIM_3D =>
      let betaxy := coef coefs_x 2 in
      let gammax := coef coefs_x 4 in
      alphax * (F (i+1)%Z j k - F i j k)
      + betaxy * (F (i+1)%Z (j+1)%Z k - F i (j+1)%Z k
               +  F (i+1)%Z (j-1)%Z k - F i (j-1)%Z k)
      + betaxz * (F (i+1)%Z j (k+1)%Z - F i j (k+1)%Z
               +  F (i+1)%Z j (k-1)%Z - F i j (k-1)%Z)
      + gammax * (F (i+1)%Z (j+1)%Z (k+1)%Z - F i (j+1)%Z (k+1)%Z
               +  F (i+1)%Z (j-1)%Z (k+1)%Z - F i (j-1)%Z (k+1)%Z
               +  F (i+1)%Z (j+1)%Z (k-1)%Z - F i (j+1)%Z (k-1)%Z
               +  F (i+1)%Z (j-1)%Z (k-1)%Z - F i (j-1)%Z (k-1)%Z)
  | WARPX_DIM_XZ =>
      alphax * (F (i+1)%Z j k - F i j k)
      + betaxz * (F (i+1)%Z (j+1)%Z k - F i (j+1)%Z k
               +  F (i+1)%Z (j-1)%Z k - F i (j-1)%Z k)
  end.

Definition DownwardDx (dim : WARPX_DIM) (F : Array4)
  (coefs_x : list Q) (n_coefs_x : Z) (i j k : Z) : Q :=
  let inv_dx := coef coefs_x 0 in
  inv_dx * (F i j k - F (i-1)%Z j k).

Definition UpwardDy (dim : WARPX_DIM) (F : Array4)
  (coefs_y : list Q) (n_coefs_y : Z) (i j k : Z) : Q :=
  match dim with
  | WARPX_DIM_3D =>
      let alphay := coef coefs_y 1 in
      let betayz := coef coefs_y 2 in
      let betayx := coef coefs_y 3 in
      let gammay := coef coefs_y 4 in
      alphay * (F i (j+1)%Z k - F i j k)
      + betayx * (F (i+1)%Z (j+1)%Z k - F (i+1)%Z j k
               +  F (i-1)%Z (j+1)%Z k - F (i-1)%Z j k)
      + betayz * (F i (j+1)%Z (k+1)%Z - F i j (k+1)%Z
               +  F i (j+1)%Z (k-1)%Z - F i j (k-1)%Z)
      + gammay * (F (i+1)%Z (j+1)%Z (k+1)%Z - F (i+1)%Z j (k+1)%Z
               +  F (i-1)%Z (j+1)%Z (k+1)%Z - F (i-1)%Z j (k+1)%Z
               +  F (i+1)%Z (j+1)%Z (k-1)%Z - F (i+1)%Z j (k-1)%Z
               +  F (i-1)%Z (j+1)%Z (k-1)%Z - F (i-1)%Z j (k-1)%Z)
  | WARPX_DIM_XZ => 0
  end.

Definition DownwardDy (dim : WARPX_DIM) (F : Array4)
  (coefs_y : list Q) (n_coefs_y : Z) (i j k : Z) : Q :=
  match dim with
  | WARPX_DIM_3D =>
      let inv_dy := coef coefs_y 0 in
      inv_dy * (F i j k - F i (j-1)%Z k)
  | WARPX_DIM_XZ => 0
  end.

Definition UpwardDz (dim : WARPX_DIM) (F : Array4)
  (coefs_z : list Q) (n_coefs_z : Z) (i j k : Z) : Q :=
  let alphaz := coef coefs_z 1 in
  let betazx := coef coefs_z 2 in
  match dim with
  | WARPX_DIM_3D =>
      let betazy := coef coefs_z 3 in
      let gammaz := coef coefs_z 4 in
      alphaz * (F i j (k+1)%Z - F i j k)
      + betazx * (F (i+1)%Z j (k+1)%Z - F (i+1)%Z j k
               +  F (i-1)%Z j (k+1)%Z - F (i-1)%Z j k)
      + betazy * (F i (j+1)%Z (k+1)%Z - F i (j+1)%Z k
               +  F i (j-1)%Z (k+1)%Z - F i (j-1)%Z k)
      + gammaz * (F (i+1)%Z (j+1)%Z (k+1)%Z - F (i+1)%Z (j+1)%Z k
               +  F (i-1)%Z (j+1)%Z (k+1)%Z - F (i-1)%Z (j+1)%Z k
               +  F (i+1)%Z (j-1)%Z (k+1)%Z - F (i+1)%Z (j-1)%Z k
               +  F (i-1)%Z (j-1)%Z (k+1)%Z - F (i-1)%Z (j-1)%Z k)
  | WARPX_DIM_XZ =>
      alphaz * (F i (j+1)%Z k - F i j k)
      + betazx * (F (i+1)%Z (j+1)%Z k - F (i+1)%Z j k
               +  F (i-1)%Z (j+1)%Z k - F (i-1)%Z j k)
  end.

Definition DownwardDz (dim : WARPX_DIM) (F : Array4)
  (coefs_z : list Q) (n_coefs_z : Z) (i j k : Z) : Q :=
  let inv_dz := coef coefs_z 0 in
  match dim with
  | WARPX_DIM_3D => inv_dz * (F i j k - F i j (k-1)%Z)
  | WARPX_DIM_XZ => inv_dz * (F i j k - F i (j-1)%Z k)
  end.

End CartesianCKCAlgorithm.

(** ** WarpXParticleContainer.H: attribute indices and registration *)

(** [struct PIdx]: the enumeration of the compile-time real attributes.
    [theta] exists only when [WARPX_DIM_RZ] is defined, which also moves
    [nattribs] from 10 to 11. *)
Module PIdx.

Definition w : nat := 0.
Definition ux : nat := 1.
Definition uy : nat := 2.
Definition uz : nat := 3.
Definition Ex : nat := 4.
Definition Ey : nat := 5.
Definition Ez : nat := 6.
Definition Bx : nat := 7.
Definition By : nat := 8.
Definition Bz : nat := 9.
Definition theta : nat := 10.

Definition nattribs (WARPX_DIM_RZ : bool) : nat :=
  if WARPX_DIM_RZ then 11 else 10.

End PIdx.

Module WarpXParticleContainer.

(** The part of the container state that [AddRealComp] touches.  The two
    [std::map<std::string, int>] members are finite maps; the number of
    runtime real components is the counter kept by the AMReX base class
    [amrex::ParticleContainer<0, 0, PIdx::nattribs>] (library code), with
    the per-component communication flags it records. *)
Record t : Type := mk {
  m_num_runtime_real : nat;
  h_redistribute_real_comp : list bool;
  particle_comps : gmap string Z;
  particle_runtime_comps : gmap string Z
}.

Section Build.

Variable WARPX_DIM_RZ : bool.

(** AMReX [NumRealComps ()]: [NArrayReal + NumRuntimeRealComps ()], where
    [NArrayReal] is the template argument [PIdx::nattribs]. *)
Definition NumRealComps (pc : t) : Z :=
  (Z.of_nat (PIdx.nattribs WARPX_DIM_RZ) + Z.of_nat (m_num_runtime_real pc))%Z.

(** AMReX [AddRealComp (comm)]: appends one runtime real component. *)
Definition AddRealComp_amrex (comm : bool) (pc : t) : t :=
  {| m_num_runtime_real := S (m_num_runtime_real pc);
     h_redistribute_real_comp := h_redistribute_real_comp pc ++ [comm];
     particle_comps := particle_comps pc;
     particle_runtime_comps := particle_runtime_comps pc |}.

(** [WarpXParticleContainer::AddRealComp (name, comm)]. *)
Definition AddRealComp (name : string) (comm : bool) (pc : t) : t :=
  let pc :=
    {| m_num_runtime_real := m_num_runtime_real pc;
       h_redistribute_real_comp := h_redistribute_real_comp pc;
       particle_comps := <[name := NumRealComps pc]> (particle_comps pc);
       particle_runtime_comps := particle_runtime_comps pc |} in
  let pc :=
    {| m_num_runtime_real := m_num_runtime_real pc;
       h_redistribute_real_comp := h_redistribute_real_comp pc;
       particle_comps := particle_comps pc;
       particle_runtime_comps :=
         <[name := (NumRealComps pc - Z.of_nat (PIdx.nattribs WARPX_DIM_RZ))%Z]>
           (particle_runtime_comps pc) |} in
  AddRealComp_amrex comm pc.

(** Successive registrations, in call order. *)
Definition AddRealComps (names : list (string * bool)) (pc : t) : t :=
  fold_left (fun pc nc => AddRealComp (fst nc) (snd nc) pc) names pc.

End Build.

End WarpXParticleContainer.

(** [namespace ParticleStringNames]: [to_index], the names of the
    compile-time attributes. *)
Module ParticleStringNames.

Definition to_index (WARPX_DIM_RZ : bool) : gmap string Z :=
  list_to_map
    ([("w"%string, Z.of_nat PIdx.w); ("ux"%string, Z.of_nat PIdx.ux);
      ("uy"%string, Z.of_nat PIdx.uy); ("uz"%string, Z.of_nat PIdx.uz);
      ("Ex"%string, Z.of_nat PIdx.Ex); ("Ey"%string, Z.of_nat PIdx.Ey);
      ("Ez"%string, Z.of_nat PIdx.Ez); ("Bx"%string, Z.of_nat PIdx.Bx);
      ("By"%string, Z.of_nat PIdx.By); ("Bz"%string, Z.of_nat PIdx.Bz)]
     ++ (if WARPX_DIM_RZ then [("theta"%string, Z.of_nat PIdx.theta)] else [])).

End ParticleStringNames.

(** The integer side of the container: [particle_icomps],
    [particle_runtime_icomps] and the AMReX counter of runtime integer
    components ([NArrayInt] is 0). *)
Module WarpXParticleContainerInt.

Record t : Type := mk {
  m_num_runtime_int : nat;
  h_redistribute_int_comp : list bool;
  particle_icomps : gmap string Z;
  particle_runtime_icomps : gmap string Z
}.

(** AMReX [NumIntComps ()]: [NArrayInt + NumRuntimeIntComps ()]. *)
Definition NumIntComps (pc : t) : Z :=
  (0 + Z.of_nat (m_num_runtime_int pc))%Z.

(** AMReX [AddIntComp (comm)]: appends one runtime integer component. *)
Definition AddIntComp_amrex (comm : bool) (pc : t) : t :=
  {| m_num_runtime_int := S (m_num_runtime_int pc);
     h_redistribute_int_comp := h_redistribute_int_comp pc ++ [comm];
     particle_icomps := particle_icomps pc;
     particle_runtime_icomps := particle_runtime_icomps pc |}.

(** [WarpXParticleContainer::AddIntComp (name, comm)]. *)
Definition AddIntComp (name : string) (comm : bool) (pc : t) : t :=
  let pc :=
    {| m_num_runtime_int := m_num_runtime_int pc;
       h_redistribute_int_comp := h_redistribute_int_comp pc;
       particle_icomps := <[name := NumIntComps pc]> (particle_icomps pc);
       particle_runtime_icomps := particle_runtime_icomps pc |} in
  let pc :=
    {| m_num_runtime_int := m_num_runtime_int pc;
       h_redistribute_int_comp := h_redistribute_int_comp pc;
       particle_icomps := particle_icomps pc;
       particle_runtime_icomps :=
         <[name := (NumIntComps pc - 0)%Z]> (particle_runtime_icomps pc) |} in
  AddIntComp_amrex comm pc.

Definition AddIntComps (names : list (string * bool)) (pc : t) : t :=
  fold_left (fun pc nc => AddIntComp (fst nc) (snd nc) pc) names pc.

End WarpXParticleContainerInt.

(** ** QEDPairGeneration.H *)

(** *** Particle tiles and the store the functors act on *)

(** [amrex::Particle<0,0>]: position, id and cpu. *)
Record ParticleType : Type := mkParticle {
  pos : list Q;
  id : Z;
  cpu : Z
}.

(** [amrex::ParticleTileData]: array of structs, compile-time real arrays
    ([PIdx::nattribs] of them), runtime real and integer arrays. *)
Record ParticleTileData : Type := mkTile {
  m_aos : list ParticleType;
  m_rdata : list (list Q);
  m_runtime_rdata : list (list Q);
  m_runtime_idata : list (list Z)
}.

(** A C++ reference to a tile is a key of the store, so two references may
    denote the same tile. *)
Abbreviation TileRef := nat.

(** Writes, in program order: [t.m_rdata[comp][i] = _] and
    [t.m_aos[i].id() = _]. *)
Inductive Effect : Type :=
| WroteReal (t : TileRef) (comp i : nat)
| WroteId (t : TileRef) (i : nat).

(** [BreitWheelerGeneratePairs] results: the eight output pointers. *)
Record PairOut : Type := mkPairOut {
  e_px : Q; e_py : Q; e_pz : Q;
  p_px : Q; p_py : Q; p_pz : Q;
  e_w : Q; p_w : Q
}.

Section QED.

(** State of the random number engine the QED library draws from. *)
Context {Engine : Type}.

Record World : Type := mkWorld {
  tiles : TileRef -> ParticleTileData;
  engine : Engine;
  trace : list Effect
}.

(** Computations that read and write the store and fail on an access
    outside an array. *)
Definition M (A : Type) : Type := World -> option (A * World).

Definition ret {A : Type} (x : A) : M A := fun w => Some (x, w).

Definition mbind' {A B : Type} (c : M A) (k : A -> M B) : M B :=
  fun w =>
    match c w with
    | Some (x, w') => k x w'
    | None => None
    end.

(** Value at [t.m_rdata[comp][i]], when that element exists. *)
Definition peek (w : World) (t : TileRef) (comp i : nat) : option Q :=
  match m_rdata (tiles w t) !! comp with
  | Some arr => arr !! i
  | None => None
  end.

(** Value at [t.m_runtime_rdata[comp][i]]. *)
Definition peek_runtime (w : World) (t : TileRef) (comp i : nat) : option Q :=
  match m_runtime_rdata (tiles w t) !! comp with
  | Some arr => arr !! i
  | None => None
  end.

(** The struct [t.m_aos[i]]. *)
Definition peek_aos (w : World) (t : TileRef) (i : nat) : option ParticleType :=
  m_aos (tiles w t) !! i.

Definition poke (w : World) (t : TileRef) (comp i : nat) (v : Q) : World :=
  let ptd := tiles w t in
  {| tiles := <[t := {| m_aos := m_aos ptd;
                        m_rdata := alter (fun arr => <[i := v]> arr) comp (m_rdata ptd);
                        m_runtime_rdata := m_runtime_rdata ptd;
                        m_runtime_idata := m_runtime_idata ptd |}]> (tiles w);
     engine := engine w;
     trace := trace w ++ [WroteReal t comp i] |}.

Definition poke_id (w : World) (t : TileRef) (i : nat) (v : Z) : World :=
  let ptd := tiles w t in
  {| tiles := <[t := {| m_aos := alter (fun p => {| pos := pos p; id := v; cpu := cpu p |})
                                   i (m_aos ptd);
                        m_rdata := m_rdata ptd;
                        m_runtime_rdata := m_runtime_rdata ptd;
                        m_runtime_idata := m_runtime_idata ptd |}]> (tiles w);
     engine := engine w;
     trace := trace w ++ [WroteId t i] |}.

Definition set_engine (w : World) (e : Engine) : World :=
  {| tiles := tiles w; engine := e; trace := trace w |}.

(** Slot [i] of tile [t] holds a particle: the struct [t.m_aos[i]] and the
    ten real attributes [PIdx::w] to [PIdx::Bz] of that index exist. *)
Definition allocated (w : World) (t : TileRef) (i : nat) : bool :=
  match peek_aos w t i with
  | Some _ => forallb (fun comp => match peek w t comp i with
                                   | Some _ => true
                                   | None => false
                                   end) (seq 0 10)
  | None => false
  end.

(** [t.m_rdata[comp][i]] as an rvalue. *)
Definition read_rdata (t : TileRef) (comp i : nat) : M Q :=
  fun w =>
    match peek w t comp i with
    | Some v => Some (v, w)
    | None => None
    end.

(** [t.m_runtime_rdata[comp][i]] as an rvalue. *)
Definition read_runtime_rdata (t : TileRef) (comp i : nat) : M Q :=
  fun w =>
    match peek_runtime w t comp i with
    | Some v => Some (v, w)
    | None => None
    end.

(** [t.m_rdata[comp][i] = v]. *)
Definition write_rdata (t : TileRef) (comp i : nat) (v : Q) : M unit :=
  fun w =>
    match peek w t comp i with
    | Some _ => Some (tt, poke w t comp i v)
    | None => None
    end.

(** [t.m_aos[i].id() = v]. *)
Definition write_id (t : TileRef) (i : nat) (v : Z) : M unit :=
  fun w =>
    match peek_aos w t i with
    | Some _ => Some (tt, poke_id w t i v)
    | None => None
    end.

End QED.

Arguments World : clear implicits.
Arguments M : clear implicits.

Notation "'let!' x ':=' c 'in' k" := (mbind' c (fun x => k))
  (at level 10, x name, c at level 100, k at level 200).
Notation "c ';;!' k" := (mbind' c (fun _ => k))
  (at level 100, k at level 200, right associativity).

(** *** The filter functor *)

Module PairGenerationFilterFunc.

Record t : Type := mk {
  m_opt_depth_runtime_comp : nat
}.

Section Call.

Context {Engine : Type}.

(** [bool operator() (const PData& ptd, int const i) const noexcept]. *)
Definition operator_call (self : t) (ptd : TileRef) (i : nat) : M Engine bool :=
  let! opt_depth := read_runtime_rdata ptd (m_opt_depth_runtime_comp self) i in
  ret (if Qlt_le_dec opt_depth 0 then true else false).

End Call.

End PairGenerationFilterFunc.

(** *** The transform functor *)

Module PairGenerationTransformFunc.

Section Call.

Context {Engine : Type}.

(** [BreitWheelerGeneratePairs::operator()<1>]: the pair-creation sampling
    of the QED library, an external collaborator.  It receives the photon
    momentum, the fields and the weight, draws from the random engine and
    fills the eight outputs. *)
Definition BreitWheelerGeneratePairs : Type :=
  Engine -> Q * Q * Q -> Q * Q * Q -> Q * Q * Q -> Q -> PairOut * Engine.

Record t : Type := mk {
  m_generate_functor : BreitWheelerGeneratePairs
}.

Definition generate (g : BreitWheelerGeneratePairs)
  (p E B : Q * Q * Q) (w : Q) : M Engine PairOut :=
  fun s =>
    let r := g (engine s) p E B w in
    Some (fst r, set_engine s (snd r)).

(** [PhysConst::m_e] comes from [Utils/WarpXConst.H]; it is a parameter. *)
Variable m_e : Q.

(** [void operator() (DstData& dst1, DstData& dst2, SrcData& src,
    int const i_src, int const i_dst1, int const i_dst2) const noexcept]. *)
Definition operator_call (self : t) (dst1 dst2 src : TileRef)
  (i_src i_dst1 i_dst2 : nat) : M Engine unit :=
  let me := m_e in
  let one_over_me := 1 / me in
  let! w := read_rdata src PIdx.w i_src in
  let! ux := read_rdata src PIdx.ux i_src in
  let! uy := read_rdata src PIdx.uy i_src in
  let! uz := read_rdata src PIdx.uz i_src in
  let! ex := read_rdata src PIdx.Ex i_src in
  let! ey := read_rdata src PIdx.Ey i_src in
  let! ez := read_rdata src PIdx.Ez i_src in
  let! bx := read_rdata src PIdx.Bx i_src in
  let! by_ := read_rdata src PIdx.By i_src in
  let! bz := read_rdata src PIdx.Bz i_src in
  let px := ux * me in
  let py := uy * me in
  let pz := uz * me in
  let! out := generate (m_generate_functor self)
                (px, py, pz) (ex, ey, ez) (bx, by_, bz) w in
  write_rdata dst1 PIdx.w i_dst1 (e_w out) ;;!
  write_rdata dst1 PIdx.ux i_dst1 (e_px out * one_over_me) ;;!
  write_rdata dst1 PIdx.uy i_dst1 (e_py out * one_over_me) ;;!
  write_rdata dst1 PIdx.uz i_dst1 (e_pz out * one_over_me) ;;!
  write_rdata dst2 PIdx.w i_dst2 (p_w out) ;;!
  write_rdata dst2 PIdx.ux i_dst2 (p_px out * one_over_me) ;;!
  write_rdata dst2 PIdx.uy i_dst2 (p_py out * one_over_me) ;;!
  write_rdata dst2 PIdx.uz i_dst2 (p_pz out * one_over_me) ;;!
  write_id src i_src (-1).

End Call.

End PairGenerationTransformFunc.

(** *** Running the functors over photons *)

(** One pair-generation event: source photon index and its two destination
    slots. *)
Record Event : Type := mkEvent {
  i_src : nat;
  i_dst1 : nat;
  i_dst2 : nat
}.

Section Driver.

Context {Engine : Type}.
Variable m_e : Q.
Variable filter : PairGenerationFilterFunc.t.
Variable transform : PairGenerationTransformFunc.t (Engine := Engine).
Variables dst1 dst2 src : TileRef.

(** The transform applied once to each event of a sequence, in order. *)
Fixpoint transform_all (evs : list Event) : M Engine unit :=
  match evs with
  | [] => ret tt
  | ev :: evs' =>
      PairGenerationTransformFunc.operator_call m_e transform dst1 dst2 src
        (i_src ev) (i_dst1 ev) (i_dst2 ev) ;;!
      transform_all evs'
  end.

(** Filter plus transform on one photon: the transform runs when the
    filter selects the photon. *)
Definition filter_then_transform (ev : Event) : M Engine bool :=
  let! flagged := PairGenerationFilterFunc.operator_call filter src (i_src ev) in
  if flagged
  then PairGenerationTransformFunc.operator_call m_e transform dst1 dst2 src
         (i_src ev) (i_dst1 ev) (i_dst2 ev) ;;! ret true
  else ret false.

End Driver.

(** ** Vocabulary of the statements *)

(** Sum of a list of rationals. *)
Definition Qsum (l : list Q) : Q := fold_right Qplus 0 l.

(** Fields the derivative operators are tried on: linear along one index
    with slope [d] per cell, and globally constant. *)
Definition linear_x (d : Q) : Array4 := fun i _ _ => inject_Z i * d.
Definition linear_y (d : Q) : Array4 := fun _ j _ => inject_Z j * d.
Definition linear_z (d : Q) : Array4 := fun _ _ k => inject_Z k * d.
Definition constant_field (c : Q) : Array4 := fun _ _ _ => c.

(** Slots of tile [t] whose weight attribute was written, in program
    order. *)
Fixpoint weight_writes (t : TileRef) (tr : list Effect) : list nat :=
  match tr with
  | [] => []
  | WroteReal t' comp i :: tr' =>
      if decide (t' = t /\ comp = PIdx.w)
      then i :: weight_writes t tr'
      else weight_writes t tr'
  | WroteId _ _ :: tr' => weight_writes t tr'
  end.

Section Outcome.

Context {Engine : Type}.
Variable m_e : Q.
Variable self : PairGenerationTransformFunc.t (Engine := Engine).
Variables dst1 dst2 src : TileRef.

(** Attribute [comp] of photon [i], zero when the slot does not exist. *)
Definition photon_attr (w : World Engine) (i comp : nat) : Q :=
  default 0 (peek w src comp i).

(** What the pair-creation collaborator answers for photon [i] in [w]. *)
Definition sampled (w : World Engine) (i : nat) : PairOut * Engine :=
  PairGenerationTransformFunc.m_generate_functor self (engine w)
    (photon_attr w i PIdx.ux * m_e, photon_attr w i PIdx.uy * m_e,
     photon_attr w i PIdx.uz * m_e)
    (photon_attr w i PIdx.Ex, photon_attr w i PIdx.Ey, photon_attr w i PIdx.Ez)
    (photon_attr w i PIdx.Bx, photon_attr w i PIdx.By, photon_attr w i PIdx.Bz)
    (photon_attr w i PIdx.w).

(** The store one successful call of the transform leaves behind. *)
Definition transformed (ev : Event) (w : World Engine) : World Engine :=
  let out := fst (sampled w (i_src ev)) in
  let w := set_engine w (snd (sampled w (i_src ev))) in
  let w := poke w dst1 PIdx.w (i_dst1 ev) (e_w out) in
  let w := poke w dst1 PIdx.ux (i_dst1 ev) (e_px out * (1 / m_e)) in
  let w := poke w dst1 PIdx.uy (i_dst1 ev) (e_py out * (1 / m_e)) in
  let w := poke w dst1 PIdx.uz (i_dst1 ev) (e_pz out * (1 / m_e)) in
  let w := poke w dst2 PIdx.w (i_dst2 ev) (p_w out) in
  let w := poke w dst2 PIdx.ux (i_dst2 ev) (p_px out * (1 / m_e)) in
  let w := poke w dst2 PIdx.uy (i_dst2 ev) (p_py out * (1 / m_e)) in
  let w := poke w dst2 PIdx.uz (i_dst2 ev) (p_pz out * (1 / m_e)) in
  poke_id w src (i_src ev) (-1).

Definition transformed_all (evs : list Event) (w : World Engine) : World Engine :=
  fold_left (fun w ev => transformed ev w) evs w.

(** The writes of one call, in program order. *)
Definition writes_of (ev : Event) : list Effect :=
  [WroteReal dst1 PIdx.w (i_dst1 ev); WroteReal dst1 PIdx.ux (i_dst1 ev);
   WroteReal dst1 PIdx.uy (i_dst1 ev); WroteReal dst1 PIdx.uz (i_dst1 ev);
   WroteReal dst2 PIdx.w (i_dst2 ev); WroteReal dst2 PIdx.ux (i_dst2 ev);
   WroteReal dst2 PIdx.uy (i_dst2 ev); WroteReal dst2 PIdx.uz (i_dst2 ev);
   WroteId src (i_src ev)].

(** Every event names an existing photon and two existing destination
    slots. *)
Definition slots_allocated (w : World Engine) (evs : list Event) : bool :=
  forallb (fun ev => allocated w src (i_src ev) && allocated w dst1 (i_dst1 ev)
                     && allocated w dst2 (i_dst2 ev)) evs.

End Outcome.

(** Weight of the particle in slot [i] of tile [t]. *)
Definition weight_at {Engine : Type} (w : World Engine) (t : TileRef) (i : nat) : Q :=
  default 0 (peek w t PIdx.w i).

(** A field that is affine in the three coordinates [i dx], [j dy],
    [k dz]. *)
Definition affine_field (a b c e dx dy dz : Q) : Array4 :=
  fun i j k => a * (inject_Z i * dx) + b * (inject_Z j * dy)
               + c * (inject_Z k * dz) + e.

(** The cells within one cell of [(i, j, k)]; in the XZ build the third
    index does not move. *)
Definition halo (dim : WARPX_DIM) (i j k a b c : Z) : Prop :=
  (i - 1 <= a <= i + 1)%Z /\ (j - 1 <= b <= j + 1)%Z /\
  match dim with
  | WARPX_DIM_3D => (k - 1 <= c <= k + 1)%Z
  | WARPX_DIM_XZ => c = k
  end.

(** No two names of [m] share a slot. *)
Definition slots_distinct (m : gmap string Z) : Prop :=
  forall n1 n2 v, m !! n1 = Some v -> m !! n2 = Some v -> n1 = n2.

(** Every slot of [m] lies in [[lo, hi)]. *)
Definition slots_within (lo hi : Z) (m : gmap string Z) : Prop :=
  forall n v, m !! n = Some v -> (lo <= v < hi)%Z.

(** The registry of real attributes is coherent: slots are distinct and in
    range in both maps, and a runtime entry is the full entry minus
    [PIdx::nattribs]. *)
Definition registry_wf (WARPX_DIM_RZ : bool) (pc : WarpXParticleContainer.t) : Prop :=
  slots_distinct (WarpXParticleContainer.particle_comps pc) /\
  slots_within 0 (WarpXParticleContainer.NumRealComps WARPX_DIM_RZ pc)
    (WarpXParticleContainer.particle_comps pc) /\
  slots_distinct (WarpXParticleContainer.particle_runtime_comps pc) /\
  slots_within 0 (Z.of_nat (WarpXParticleContainer.m_num_runtime_real pc))
    (WarpXParticleContainer.particle_runtime_comps pc) /\
  forall n v,
    WarpXParticleContainer.particle_runtime_comps pc !! n = Some v ->
    WarpXParticleContainer.particle_comps pc !! n
      = Some (v + Z.of_nat (PIdx.nattribs WARPX_DIM_RZ))%Z.

(** ** Concrete inputs *)

(** A container with no runtime component yet and the ten compile-time
    names of [ParticleStringNames::to_index] bound to their indices. *)
Definition fresh_container : WarpXParticleContainer.t :=
  {| WarpXParticleContainer.m_num_runtime_real := 0;
     WarpXParticleContainer.h_redistribute_real_comp := [];
     WarpXParticleContainer.particle_comps :=
       list_to_map [("w"%string, 0%Z); ("ux"%string, 1%Z); ("uy"%string, 2%Z);
                    ("uz"%string, 3%Z); ("Ex"%string, 4%Z); ("Ey"%string, 5%Z);
                    ("Ez"%string, 6%Z); ("Bx"%string, 7%Z); ("By"%string, 8%Z);
                    ("Bz"%string, 9%Z)];
     WarpXParticleContainer.particle_runtime_comps := ∅ |}.

(** [PhysConst::m_e] in SI units (kg). *)
Definition electron_mass : Q := 9.10938356e-31.

(** Two photons with weights 1 and 3, momenta [(2,4,6)] and [(4,6,8)], a
    magnetic field component, and exhausted optical depths. *)
Definition example_photons : ParticleTileData :=
  {| m_aos := [mkParticle [0; 0; 0] 1 0; mkParticle [1; 1; 1] 2 0];
     m_rdata := [[1; 3]; [2; 4]; [4; 6]; [6; 8]; [0; 0]; [0; 0]; [0; 0];
                 [0; 0]; [5; 5]; [0; 0]];
     m_runtime_rdata := [[-1; -(1 # 2)]];
     m_runtime_idata := [] |}.

(** A tile of [n] freshly allocated, zero-filled slots. *)
Definition empty_slots (n : nat) : ParticleTileData :=
  {| m_aos := replicate n (mkParticle [0; 0; 0] 0 0);
     m_rdata := replicate 10 (replicate n 0);
     m_runtime_rdata := [];
     m_runtime_idata := [] |}.

(** Tiles 0 and 1 are the two product species, every other reference is
    the photon tile; the engine state counts the calls. *)
Definition example_world (n : nat) : World nat :=
  {| tiles := fun t => match t with
                       | O => empty_slots n
                       | S O => empty_slots n
                       | _ => example_photons
                       end;
     engine := 0%nat;
     trace := [] |}.

(** Test doubles for the collaborator: both halve the momentum they are
    given; the first gives each daughter weight 1, the second half of the
    photon weight. *)
Definition halving_double
  : PairGenerationTransformFunc.BreitWheelerGeneratePairs (Engine := nat) :=
  fun e p _ _ _ =>
    let '(px, py, pz) := p in
    ({| e_px := px / 2; e_py := py / 2; e_pz := pz / 2;
        p_px := px / 2; p_py := py / 2; p_pz := pz / 2;
        e_w := 1; p_w := 1 |}, S e).

Definition splitting_double
  : PairGenerationTransformFunc.BreitWheelerGeneratePairs (Engine := nat) :=
  fun e p _ _ wt =>
    let '(px, py, pz) := p in
    ({| e_px := px / 2; e_py := py / 2; e_pz := pz / 2;
        p_px := px / 2; p_py := py / 2; p_pz := pz / 2;
        e_w := wt / 2; p_w := wt / 2 |}, S e).

(** The example store after an earlier use of its first destination slot,
    which already holds weight 9. *)
Definition used_world : World nat := poke (example_world 1) 0 PIdx.w 0 9.

(** The field [i] cut off to zero outside [|i| <= 5]. *)
Definition clipped_linear : Array4 :=
  fun i _ _ => if (Z.abs i <=? 5)%Z then inject_Z i * 1 else 0.

(** A container whose real registry is the table of compile-time names,
    with no runtime component. *)
Definition table_container (WARPX_DIM_RZ : bool) : WarpXParticleContainer.t :=
  {| WarpXParticleContainer.m_num_runtime_real := 0;
     WarpXParticleContainer.h_redistribute_real_comp := [];
     WarpXParticleContainer.particle_comps :=
       ParticleStringNames.to_index WARPX_DIM_RZ;
     WarpXParticleContainer.particle_runtime_comps := ∅ |}.

(** An integer registry with no component. *)
Definition empty_int_registry : WarpXParticleContainerInt.t :=
  {| WarpXParticleContainerInt.m_num_runtime_int := 0;
     WarpXParticleContainerInt.h_redistribute_int_comp := [];
     WarpXParticleContainerInt.particle_icomps := ∅;
     WarpXParticleContainerInt.particle_runtime_icomps := ∅ |}.

(** ** The same code in IEEE binary64 arithmetic *)

(** [amrex::Real] and [amrex::ParticleReal] are [double] in the default
    build.  The stencil builder and the two pair-generation functors are
    transcribed a second time over binary64 numbers: every operation is
    rounded on its own, to nearest with ties to even, and the operations
    follow the order in which the C++ expressions evaluate.  A division by
    zero gives an infinity or a NaN, as IEEE arithmetic does, so the
    builder always returns.  Reading or writing an array outside its
    bounds is still a failure ([None]). *)
Module Binary64.

#[local] Open Scope float_scope.

(** [std::max(a, b)]: returns [b] when [a < b], otherwise [a]. *)
Definition std_max (a b : float) : float :=
  if a <? b then b else a.

(** [std::max({a, b, c})]: the first of the largest elements. *)
Definition std_max3 (a b c : float) : float := std_max (std_max a b) c.

(** [v[i] = x] on a vector that was resized beforehand. *)
Definition store (i : nat) (x : float) (v : list float) : list float :=
  <[i:=x]> v.

(** [InitializeStencilCoefficients], lines 24 to 91 of
    [CartesianCKCAlgorithm.H]. *)
Definition InitializeStencilCoefficients (dim : WARPX_DIM)
  (cell_size : float * float * float)
  (stencil_coefs_x stencil_coefs_y stencil_coefs_z : list float)
  : list float * list float * list float :=
  let '(cell_size0, cell_size1, cell_size2) := cell_size in
  let inv_dx := 1 / cell_size0 in
  let inv_dy := 1 / cell_size1 in
  let inv_dz := 1 / cell_size2 in
  let fill (alphax alphay alphaz betaxy betaxz betayx betayz betazx betazy
            gammax gammay gammaz : float) :=
    let stencil_coefs_x := resize 6 0 stencil_coefs_x in
    let stencil_coefs_x := store 0 inv_dx stencil_coefs_x in
    let stencil_coefs_x := store 1 alphax stencil_coefs_x in
    let stencil_coefs_x := store 2 betaxy stencil_coefs_x in
    let stencil_coefs_x := store 3 betaxz stencil_coefs_x in
    let stencil_coefs_x := store 4 (gammax * inv_dx) stencil_coefs_x in
    let stencil_coefs_y := resize 6 0 stencil_coefs_y in
    let stencil_coefs_y := store 0 inv_dy stencil_coefs_y in
    let stencil_coefs_y := store 1 alphay stencil_coefs_y in
    let stencil_coefs_y := store 2 betayz stencil_coefs_y in
    let stencil_coefs_y := store 3 betayx stencil_coefs_y in
    let stencil_coefs_y := store 4 (gammay * inv_dy) stencil_coefs_y in
    let stencil_coefs_z := resize 6 0 stencil_coefs_z in
    let stencil_coefs_z := store 0 inv_dz stencil_coefs_z in
    let stencil_coefs_z := store 1 alphaz stencil_coefs_z in
    let stencil_coefs_z := store 2 betazx stencil_coefs_z in
    let stencil_coefs_z := store 3 betazy stencil_coefs_z in
    let stencil_coefs_z := store 4 (gammaz * inv_dz) stencil_coefs_z in
    (stencil_coefs_x, stencil_coefs_y, stencil_coefs_z) in
  match dim with
  | WARPX_DIM_3D =>
      let delta := std_max3 inv_dx inv_dy inv_dz in
      let rx := (inv_dx / delta) * (inv_dx / delta) in
      let ry := (inv_dy / delta) * (inv_dy / delta) in
      let rz := (inv_dz / delta) * (inv_dz / delta) in
      let beta := 0.125 * (1 - rx * ry * rz / (ry * rz + rz * rx + rx * ry)) in
      let betaxy := ry * beta * inv_dx in
      let betaxz := rz * beta * inv_dx in
      let betayx := rx * beta * inv_dy in
      let betayz := rz * beta * inv_dy in
      let betazx := rx * beta * inv_dz in
      let betazy := ry * beta * inv_dz in
      let inv_r_fac := 1 / (ry * rz + rz * rx + rx * ry) in
      let gammax := ry * rz * (0.0625 - 0.125 * ry * rz * inv_r_fac) in
      let gammay := rx * rz * (0.0625 - 0.125 * rx * rz * inv_r_fac) in
      let gammaz := rx * ry * (0.0625 - 0.125 * rx * ry * inv_r_fac) in
      let alphax := (1 - 2 * ry * beta - 2 * rz * beta - 4 * gammax) * inv_dx in
      let alphay := (1 - 2 * rx * beta - 2 * rz * beta - 4 * gammay) * inv_dy in
      let alphaz := (1 - 2 * rx * beta - 2 * ry * beta - 4 * gammaz) * inv_dz in
      fill alphax alphay alphaz betaxy betaxz betayx betayz betazx betazy
           gammax gammay gammaz
  | WARPX_DIM_XZ =>
      let delta := std_max inv_dx inv_dz in
      let rx := (inv_dx / delta) * (inv_dx / delta) in
      let rz := (inv_dz / delta) * (inv_dz / delta) in
      let beta := 0.125 in
      let betaxz := beta * rz * inv_dx in
      let betazx := beta * rx * inv_dz in
      let alphax := (1 - 2 * rz * beta) * inv_dx in
      let alphaz := (1 - 2 * rx * beta) * inv_dz in
      let gammax := 0 in
      let gammay := 0 in
      let gammaz := 0 in
      let betaxy := 0 in
      let betazy := 0 in
      let betayx := 0 in
      let betayz := 0 in
      let alphay := 0 in
      fill alphax alphay alphaz betaxy betaxz betayx betayz betazx betazy
           gammax gammay gammaz
  end.

(** [amrex::Particle<0,0>] and [amrex::ParticleTileData] with binary64
    attributes. *)
Record ParticleType : Type := mkParticle {
  pos : list float;
  id : Z;
  cpu : Z
}.

Record ParticleTileData : Type := mkTile {
  m_aos : list ParticleType;
  m_rdata : list (list float);
  m_runtime_rdata : list (list float);
  m_runtime_idata : list (list Z)
}.

(** [BreitWheelerGeneratePairs] results: the eight output pointers. *)
Record PairOut : Type := mkPairOut {
  e_px : float; e_py : float; e_pz : float;
  p_px : float; p_py : float; p_pz : float;
  e_w : float; p_w : float
}.

Section QED.

Context {Engine : Type}.

Record World : Type := mkWorld {
  tiles : TileRef -> ParticleTileData;
  engine : Engine
}.

(** [t.m_rdata[comp][i]] as an rvalue. *)
Definition read_rdata (s : World) (t : TileRef) (comp i : nat) : option float :=
  match m_rdata (tiles s t) !! comp with
  | Some arr => arr !! i
  | None => None
  end.

(** [t.m_runtime_rdata[comp][i]] as an rvalue. *)
Definition read_runtime_rdata (s : World) (t : TileRef) (comp i : nat)
  : option float :=
  match m_runtime_rdata (tiles s t) !! comp with
  | Some arr => arr !! i
  | None => None
  end.

(** [t.m_rdata[comp][i] = v]. *)
Definition write_rdata (t : TileRef) (comp i : nat) (v : float) (s : World)
  : option World :=
  let ptd := tiles s t in
  match read_rdata s t comp i with
  | Some _ =>
      Some {| tiles := <[t := {| m_aos := m_aos ptd;
                                 m_rdata := alter (fun arr => <[i := v]> arr)
                                                  comp (m_rdata ptd);
                                 m_runtime_rdata := m_runtime_rdata ptd;
                                 m_runtime_idata := m_runtime_idata ptd |}]>
                       (tiles s);
              engine := engine s |}
  | None => None
  end.

(** [t.m_aos[i].id() = v]. *)
Definition write_id (t : TileRef) (i : nat) (v : Z) (s : World) : option World :=
  let ptd := tiles s t in
  match m_aos ptd !! i with
  | Some _ =>
      Some {| tiles := <[t := {| m_aos := alter (fun p => {| pos := pos p;
                                                             id := v;
                                                             cpu := cpu p |})
                                                i (m_aos ptd);
                                 m_rdata := m_rdata ptd;
                                 m_runtime_rdata := m_runtime_rdata ptd;
                                 m_runtime_idata := m_runtime_idata ptd |}]>
                       (tiles s);
              engine := engine s |}
  | None => None
  end.

Definition set_engine (s : World) (e : Engine) : World :=
  {| tiles := tiles s; engine := e |}.

End QED.

Arguments World : clear implicits.

Module PairGenerationFilterFunc.

Record t : Type := mk {
  m_opt_depth_runtime_comp : nat
}.

Section Call.

Context {Engine : Type}.

(** [bool operator() (const PData& ptd, int const i) const noexcept]. *)
Definition operator_call (self : t) (ptd : TileRef) (i : nat) (s : World Engine)
  : option bool :=
  let? opt_depth := read_runtime_rdata s ptd (m_opt_depth_runtime_comp self) i in
  Some (opt_depth <? 0).

End Call.

End PairGenerationFilterFunc.

Module PairGenerationTransformFunc.

Section Call.

Context {Engine : Type}.

Definition BreitWheelerGeneratePairs : Type :=
  Engine -> float * float * float -> float * float * float ->
  float * float * float -> float -> PairOut * Engine.

Record t : Type := mk {
  m_generate_functor : BreitWheelerGeneratePairs
}.

Variable m_e : float.

(** [void operator() (DstData& dst1, DstData& dst2, SrcData& src,
    int const i_src, int const i_dst1, int const i_dst2) const noexcept]. *)
Definition operator_call (self : t) (dst1 dst2 src : TileRef)
  (i_src i_dst1 i_dst2 : nat) (s : World Engine) : option (World Engine) :=
  let me := m_e in
  let one_over_me := 1 / me in
  let? w := read_rdata s src PIdx.w i_src in
  let? ux := read_rdata s src PIdx.ux i_src in
  let? uy := read_rdata s src PIdx.uy i_src in
  let? uz := read_rdata s src PIdx.uz i_src in
  let? ex := read_rdata s src PIdx.Ex i_src in
  let? ey := read_rdata s src PIdx.Ey i_src in
  let? ez := read_rdata s src PIdx.Ez i_src in
  let? bx := read_rdata s src PIdx.Bx i_src in
  let? by_ := read_rdata s src PIdx.By i_src in
  let? bz := read_rdata s src PIdx.Bz i_src in
  let px := ux * me in
  let py := uy * me in
  let pz := uz * me in
  let r := m_generate_functor self (engine s)
             (px, py, pz) (ex, ey, ez) (bx, by_, bz) w in
  let out := fst r in
  let s := set_engine s (snd r) in
  let? s := write_rdata dst1 PIdx.w i_dst1 (e_w out) s in
  let? s := write_rdata dst1 PIdx.ux i_dst1 (e_px out * one_over_me) s in
  let? s := write_rdata dst1 PIdx.uy i_dst1 (e_py out * one_over_me) s in
  let? s := write_rdata dst1 PIdx.uz i_dst1 (e_pz out * one_over_me) s in
  let? s := write_rdata dst2 PIdx.w i_dst2 (p_w out) s in
  let? s := write_rdata dst2 PIdx.ux i_dst2 (p_px out * one_over_me) s in
  let? s := write_rdata dst2 PIdx.uy i_dst2 (p_py out * one_over_me) s in
  let? s := write_rdata dst2 PIdx.uz i_dst2 (p_pz out * one_over_me) s in
  write_id src i_src (-1) s.

End Call.

End PairGenerationTransformFunc.

(** Filter plus transform on one photon: the transform runs when the
    filter selects the photon. *)
Definition filter_then_transform {Engine : Type} (m_e : float)
  (filter : PairGenerationFilterFunc.t)
  (transform : PairGenerationTransformFunc.t (Engine := Engine))
  (dst1 dst2 src : TileRef) (ev : Event) (s : World Engine)
  : option (bool * World Engine) :=
  let? flagged := PairGenerationFilterFunc.operator_call filter src (i_src ev) s in
  if (flagged : bool)
  then let? s := PairGenerationTransformFunc.operator_call m_e transform
                   dst1 dst2 src (i_src ev) (i_dst1 ev) (i_dst2 ev) s in
       Some (true, s)
  else Some (false, s).

(** [PhysConst::m_e]: the binary64 number nearest to [9.10938356e-31]. *)
Definition electron_mass : float := 0x1.279dcc3e61461p-100.

(** The photons, the empty destination slots, the store and the halving
    test double of the exact model, with binary64 attributes. *)
Definition example_photons : ParticleTileData :=
  {| m_aos := [mkParticle [0; 0; 0] 1 0; mkParticle [1; 1; 1] 2 0];
     m_rdata := [[1; 3]; [2; 4]; [4; 6]; [6; 8]; [0; 0]; [0; 0]; [0; 0];
                 [0; 0]; [5; 5]; [0; 0]];
     m_runtime_rdata := [[-1; -0.5]];
     m_runtime_idata := [] |}.

Definition empty_slots (n : nat) : ParticleTileData :=
  {| m_aos := replicate n (mkParticle [0; 0; 0] 0 0);
     m_rdata := replicate 10 (replicate n 0);
     m_runtime_rdata := [];
     m_runtime_idata := [] |}.

Definition example_world (n : nat) : World nat :=
  {| tiles := fun t => match t with
                       | O => empty_slots n
                       | S O => empty_slots n
                       | _ => example_photons
                       end;
     engine := 0%nat |}.

Definition halving_double
  : PairGenerationTransformFunc.BreitWheelerGeneratePairs (Engine := nat) :=
  fun e p _ _ _ =>
    let '(px, py, pz) := p in
    ({| e_px := px / 2; e_py := py / 2; e_pz := pz / 2;
        p_px := px / 2; p_py := py / 2; p_pz := pz / 2;
        e_w := 1; p_w := 1 |}, S e).

End Binary64.

(** * Properties *)

Import CartesianCKCAlgorithm.

(** ** Checked division and positivity *)

Lemma Qpos_nonzero (b : Q) : 0 < b -> ~ b == 0.
Proof. intros H E. rewrite E in H. discriminate H. Qed.

Lemma div_nonzero (a b : Q) : ~ b == 0 -> a // b = Some (a / b).
Proof.
  intros H. unfold Checked.div.
  destruct (Qeq_bool b 0) eqn:E; [|reflexivity].
  apply Qeq_bool_iff in E. contradiction.
Qed.

Lemma div_pos (a b : Q) : 0 < b -> a // b = Some (a / b).
Proof. intros H. apply div_nonzero, Qpos_nonzero, H. Qed.

Lemma Qpos_div (a b : Q) : 0 < a -> 0 < b -> 0 < a / b.
Proof.
  intros Ha Hb. unfold Qdiv. apply Qmult_lt_0_compat; [exact Ha|].
  apply Qinv_lt_0_compat, Hb.
Qed.

Lemma Qpos_add (a b : Q) : 0 < a -> 0 < b -> 0 < a + b.
Proof. intros. lra. Qed.

Lemma Qpos_one : 0 < 1.
Proof. reflexivity. Qed.

Lemma std_max_pos (a b : Q) : 0 < a -> 0 < b -> 0 < std_max a b.
Proof. intros Ha Hb. unfold std_max. destruct (Qlt_le_dec a b); assumption. Qed.

Lemma std_max3_pos (a b c : Q) : 0 < a -> 0 < b -> 0 < c -> 0 < std_max3 a b c.
Proof. intros. unfold std_max3. auto using std_max_pos. Qed.

Lemma std_max_same (a : Q) : std_max a a = a.
Proof. unfold std_max. destruct (Qlt_le_dec a a); reflexivity. Qed.

Lemma std_max3_same (a : Q) : std_max3 a a a = a.
Proof. unfold std_max3. rewrite !std_max_same. reflexivity. Qed.

Create HintDb qpos.
#[local] Hint Resolve Qpos_div Qpos_add Qpos_one std_max_pos std_max3_pos
  Qmult_lt_0_compat : qpos.

(** ** The stencil builder on positive spacings *)

Lemma resize6 (v : list Q) :
  exists a0 a1 a2 a3 a4 a5, resize 6 0 v = [a0; a1; a2; a3; a4; a5].
Proof.
  do 6 (destruct v as [|? v]; [cbn; eauto 10|]).
  destruct v; cbn; eauto 10.
Qed.

Ltac run_builder :=
  unfold InitializeStencilCoefficients;
  rewrite !div_pos by assumption; cbn [Checked.bind];
  rewrite !div_pos by assumption; cbn [Checked.bind];
  rewrite ?div_pos by auto 10 with qpos; cbn [Checked.bind].

(** Every division of the 3-D branch has a positive divisor, and the three
    vectors come out as the source lays them out. *)
Lemma Init3D_closed (dx dy dz : Q) (sx sy sz : list Q) :
  0 < dx -> 0 < dy -> 0 < dz ->
  let inv_dx := 1 / dx in
  let inv_dy := 1 / dy in
  let inv_dz := 1 / dz in
  let delta := std_max3 inv_dx inv_dy inv_dz in
  let rx := (inv_dx / delta) * (inv_dx / delta) in
  let ry := (inv_dy / delta) * (inv_dy / delta) in
  let rz := (inv_dz / delta) * (inv_dz / delta) in
  let beta := 0.125 * (1 - rx * ry * rz / (ry * rz + rz * rx + rx * ry)) in
  let inv_r_fac := 1 / (ry * rz + rz * rx + rx * ry) in
  let gammax := ry * rz * (0.0625 - 0.125 * ry * rz * inv_r_fac) in
  let gammay := rx * rz * (0.0625 - 0.125 * rx * rz * inv_r_fac) in
  let gammaz := rx * ry * (0.0625 - 0.125 * rx * ry * inv_r_fac) in
  exists x5 y5 z5,
    InitializeStencilCoefficients WARPX_DIM_3D (dx, dy, dz) sx sy sz =
    Some ([inv_dx;
           (1 - 2 * ry * beta - 2 * rz * beta - 4 * gammax) * inv_dx;
           ry * beta * inv_dx; rz * beta * inv_dx; gammax * inv_dx; x5],
          [inv_dy;
           (1 - 2 * rx * beta - 2 * rz * beta - 4 * gammay) * inv_dy;
           rz * beta * inv_dy; rx * beta * inv_dy; gammay * inv_dy; y5],
          [inv_dz;
           (1 - 2 * rx * beta - 2 * ry * beta - 4 * gammaz) * inv_dz;
           rx * beta * inv_dz; ry * beta * inv_dz; gammaz * inv_dz; z5]).
Proof.
  intros Hx Hy Hz. cbv zeta.
  assert (Hix : 0 < 1 / dx) by auto with qpos.
  assert (Hiy : 0 < 1 / dy) by auto with qpos.
  assert (Hiz : 0 < 1 / dz) by auto with qpos.
  assert (Hd : 0 < std_max3 (1 / dx) (1 / dy) (1 / dz)) by auto with qpos.
  run_builder.
  destruct (resize6 sx) as (x0 & x1 & x2 & x3 & x4 & x5 & ->).
  destruct (resize6 sy) as (y0 & y1 & y2 & y3 & y4 & y5 & ->).
  destruct (resize6 sz) as (z0 & z1 & z2 & z3 & z4 & z5 & ->).
  cbn [store insert list_insert].
  exists x5, y5, z5. reflexivity.
Qed.

(** The same result with the ratios, [beta] and the gammas kept abstract:
    all that the weight identities need. *)
Lemma Init3D_shape (dx dy dz : Q) (sx sy sz : list Q) :
  0 < dx -> 0 < dy -> 0 < dz ->
  exists rx ry rz beta gx gy gz x5 y5 z5,
    InitializeStencilCoefficients WARPX_DIM_3D (dx, dy, dz) sx sy sz =
    Some ([1 / dx; (1 - 2 * ry * beta - 2 * rz * beta - 4 * gx) * (1 / dx);
           ry * beta * (1 / dx); rz * beta * (1 / dx); gx * (1 / dx); x5],
          [1 / dy; (1 - 2 * rx * beta - 2 * rz * beta - 4 * gy) * (1 / dy);
           rz * beta * (1 / dy); rx * beta * (1 / dy); gy * (1 / dy); y5],
          [1 / dz; (1 - 2 * rx * beta - 2 * ry * beta - 4 * gz) * (1 / dz);
           rx * beta * (1 / dz); ry * beta * (1 / dz); gz * (1 / dz); z5]).
Proof.
  intros Hx Hy Hz.
  destruct (Init3D_closed dx dy dz sx sy sz Hx Hy Hz) as (x5 & y5 & z5 & E).
  do 7 eexists. exists x5, y5, z5. exact E.
Qed.

Lemma InitXZ_shape (dx dy dz : Q) (sx sy sz : list Q) :
  0 < dx -> 0 < dy -> 0 < dz ->
  exists rx rz x5 y5 z5,
    InitializeStencilCoefficients WARPX_DIM_XZ (dx, dy, dz) sx sy sz =
    Some ([1 / dx; (1 - 2 * rz * 0.125) * (1 / dx); 0;
           0.125 * rz * (1 / dx); 0 * (1 / dx); x5],
          [1 / dy; 0; 0; 0; 0 * (1 / dy); y5],
          [1 / dz; (1 - 2 * rx * 0.125) * (1 / dz);
           0.125 * rx * (1 / dz); 0; 0 * (1 / dz); z5]).
Proof.
  intros Hx Hy Hz.
  assert (Hix : 0 < 1 / dx) by auto with qpos.
  assert (Hiy : 0 < 1 / dy) by auto with qpos.
  assert (Hiz : 0 < 1 / dz) by auto with qpos.
  assert (Hd : 0 < std_max (1 / dx) (1 / dz)) by auto with qpos.
  run_builder.
  destruct (resize6 sx) as (x0 & x1 & x2 & x3 & x4 & x5 & ->).
  destruct (resize6 sy) as (y0 & y1 & y2 & y3 & y4 & y5 & ->).
  destruct (resize6 sz) as (z0 & z1 & z2 & z3 & z4 & z5 & ->).
  cbn [store insert list_insert].
  do 2 eexists. exists x5, y5, z5. reflexivity.
Qed.

Lemma inject_Z_succ (i : Z) : inject_Z (i + 1) == inject_Z i + 1.
Proof. rewrite inject_Z_plus. reflexivity. Qed.

Lemma inject_Z_pred (i : Z) : inject_Z (i - 1) == inject_Z i - 1.
Proof. unfold Z.sub. rewrite inject_Z_plus. reflexivity. Qed.

Ltac stencil_on_linear :=
  unfold UpwardDx, DownwardDx, UpwardDy, DownwardDy, UpwardDz, DownwardDz,
    linear_x, linear_y, linear_z, coef;
  cbn [nth];
  repeat first [rewrite inject_Z_succ | rewrite inject_Z_pred].

(** ** Claims on the stencil builder and the derivative operators *)

(** C1 (as amended).  For uniform cubic spacing [d > 0] the 3-D builder
    succeeds and gives every axis the Cole-Karkkainen-Cowan weights of a
    cubic cell: inverse spacing [1/d], [alpha = 7/(12 d)], both cross betas
    [1/(12 d)] and stored gamma coefficient [1/(48 d)].  None of them is
    zero: the upward derivative is the weighted sum of the direct
    difference (7/12), the four edge-diagonal differences (1/12 each) and
    the four corner-diagonal differences (1/48 each), over [d]. *)
Theorem uniform_spacing_coefficients (d : Q) (sx sy sz : list Q) :
  0 < d ->
  exists cx cy cz,
    InitializeStencilCoefficients WARPX_DIM_3D (d, d, d) sx sy sz
      = Some (cx, cy, cz) /\
    Forall (fun c => coef c 0 == 1 / d /\ coef c 1 == 7 / (12 * d) /\
                     coef c 2 == 1 / (12 * d) /\ coef c 3 == 1 / (12 * d) /\
                     coef c 4 == 1 / (48 * d)) [cx; cy; cz] /\
    forall (F : Array4) (n i j k : Z),
      UpwardDx WARPX_DIM_3D F cx n i j k ==
        ((7 # 12) * (F (i+1)%Z j k - F i j k)
         + (1 # 12) * (F (i+1)%Z (j+1)%Z k - F i (j+1)%Z k
                       + F (i+1)%Z (j-1)%Z k - F i (j-1)%Z k)
         + (1 # 12) * (F (i+1)%Z j (k+1)%Z - F i j (k+1)%Z
                       + F (i+1)%Z j (k-1)%Z - F i j (k-1)%Z)
         + (1 # 48) * (F (i+1)%Z (j+1)%Z (k+1)%Z - F i (j+1)%Z (k+1)%Z
                       + F (i+1)%Z (j-1)%Z (k+1)%Z - F i (j-1)%Z (k+1)%Z
                       + F (i+1)%Z (j+1)%Z (k-1)%Z - F i (j+1)%Z (k-1)%Z
                       + F (i+1)%Z (j-1)%Z (k-1)%Z - F i (j-1)%Z (k-1)%Z)) / d.
Proof.
  intros Hd.
  destruct (Init3D_closed d d d sx sy sz Hd Hd Hd) as (x5 & y5 & z5 & E).
  cbv zeta in E. rewrite std_max3_same in E.
  eexists _, _, _. split; [exact E|].
  assert (Hn : ~ d == 0) by (apply Qpos_nonzero, Hd).
  split.
  - repeat constructor; cbn [coef nth]; field; repeat split; try exact Hn.
    all: try (intro; lra).
  - intros F n i j k. unfold UpwardDx, coef; cbn [nth].
    field; repeat split; try exact Hn.
    all: try (intro; lra).
Qed.

Lemma uniform_spacing_coefficients_witness :
  0 < 2 /\
  exists cx cy cz,
    InitializeStencilCoefficients WARPX_DIM_3D (2, 2, 2) [] [] []
      = Some (cx, cy, cz) /\
    Forall (fun c => coef c 0 == 1 / 2 /\ coef c 1 == 7 / (12 * 2) /\
                     coef c 2 == 1 / (12 * 2) /\ coef c 3 == 1 / (12 * 2) /\
                     coef c 4 == 1 / (48 * 2)) [cx; cy; cz].
Proof.
  split; [reflexivity|].
  destruct (uniform_spacing_coefficients 2 [] [] [] eq_refl)
    as (cx & cy & cz & E & H & _).
  exists cx, cy, cz. split; assumption.
Defined.

(** C1 as stated fails.  With [dx = dy = dz = 1] the builder returns
    [alpha = 7/12] (not [1/dx = 1]), [beta = 1/12] and [gamma = 1/48] (not
    zero), and on the field that equals [i] on the plane [j = 1] and zero
    elsewhere the upward x-derivative at the origin differs from the
    two-point centred difference. *)
Lemma uniform_spacing_not_centered_difference :
  exists cx cy cz,
    InitializeStencilCoefficients WARPX_DIM_3D (1, 1, 1) [] [] []
      = Some (cx, cy, cz) /\
    coef cx 1 == 7 / 12 /\ coef cx 2 == 1 / 12 /\ coef cx 3 == 1 / 12 /\
    coef cx 4 == 1 / 48 /\
    ~ coef cx 1 == 1 / 1 /\ ~ coef cx 2 == 0 /\ ~ coef cx 3 == 0 /\
    ~ coef cx 4 == 0 /\
    let F : Array4 := fun i j k => if (j =? 1)%Z then inject_Z i else 0 in
    ~ UpwardDx WARPX_DIM_3D F cx 6 0 0 0
      == (1 / 1) * (F 1%Z 0%Z 0%Z - F 0%Z 0%Z 0%Z).
Proof.
  eexists _, _, _. split; [vm_compute; reflexivity|].
  repeat apply conj; vm_compute; solve [reflexivity | discriminate].
Qed.

(** C4 (as amended).  In exact arithmetic, for strictly positive spacings
    the quantity [ry*rz + rz*rx + rx*ry] of the 3-D branch is strictly
    positive; the two divisions by it, the one inside [beta] and the one of
    [inv_r_fac], succeed; and the builder returns the coefficients that
    the source computes from these quotients.  A zero spacing, on the
    contrary, makes the builder fail at its first division. *)
Theorem denominator_positive (dx dy dz : Q) (sx sy sz : list Q) :
  0 < dx -> 0 < dy -> 0 < dz ->
  let inv_dx := 1 / dx in
  let inv_dy := 1 / dy in
  let inv_dz := 1 / dz in
  let delta := std_max3 inv_dx inv_dy inv_dz in
  let rx := (inv_dx / delta) * (inv_dx / delta) in
  let ry := (inv_dy / delta) * (inv_dy / delta) in
  let rz := (inv_dz / delta) * (inv_dz / delta) in
  let beta := 0.125 * (1 - rx * ry * rz / (ry * rz + rz * rx + rx * ry)) in
  let inv_r_fac := 1 / (ry * rz + rz * rx + rx * ry) in
  let gammax := ry * rz * (0.0625 - 0.125 * ry * rz * inv_r_fac) in
  let gammay := rx * rz * (0.0625 - 0.125 * rx * rz * inv_r_fac) in
  let gammaz := rx * ry * (0.0625 - 0.125 * rx * ry * inv_r_fac) in
  0 < ry * rz + rz * rx + rx * ry /\
  (rx * ry * rz) // (ry * rz + rz * rx + rx * ry)
    = Some (rx * ry * rz / (ry * rz + rz * rx + rx * ry)) /\
  1 // (ry * rz + rz * rx + rx * ry) = Some inv_r_fac /\
  is_Some (InitializeStencilCoefficients WARPX_DIM_3D (dx, dy, dz) sx sy sz) /\
  (exists x5 y5 z5,
     InitializeStencilCoefficients WARPX_DIM_3D (dx, dy, dz) sx sy sz =
     Some ([inv_dx;
            (1 - 2 * ry * beta - 2 * rz * beta - 4 * gammax) * inv_dx;
            ry * beta * inv_dx; rz * beta * inv_dx; gammax * inv_dx; x5],
           [inv_dy;
            (1 - 2 * rx * beta - 2 * rz * beta - 4 * gammay) * inv_dy;
            rz * beta * inv_dy; rx * beta * inv_dy; gammay * inv_dy; y5],
           [inv_dz;
            (1 - 2 * rx * beta - 2 * ry * beta - 4 * gammaz) * inv_dz;
            rx * beta * inv_dz; ry * beta * inv_dz; gammaz * inv_dz; z5])) /\
  InitializeStencilCoefficients WARPX_DIM_3D (0, dy, dz) sx sy sz = None.
Proof.
  intros Hx Hy Hz. cbv zeta.
  assert (Hr : 0 < (1 / dy / std_max3 (1 / dx) (1 / dy) (1 / dz))
                   * (1 / dy / std_max3 (1 / dx) (1 / dy) (1 / dz))
                   * ((1 / dz / std_max3 (1 / dx) (1 / dy) (1 / dz))
                      * (1 / dz / std_max3 (1 / dx) (1 / dy) (1 / dz)))
                 + (1 / dz / std_max3 (1 / dx) (1 / dy) (1 / dz))
                   * (1 / dz / std_max3 (1 / dx) (1 / dy) (1 / dz))
                   * ((1 / dx / std_max3 (1 / dx) (1 / dy) (1 / dz))
                      * (1 / dx / std_max3 (1 / dx) (1 / dy) (1 / dz)))
                 + (1 / dx / std_max3 (1 / dx) (1 / dy) (1 / dz))
                   * (1 / dx / std_max3 (1 / dx) (1 / dy) (1 / dz))
                   * ((1 / dy / std_max3 (1 / dx) (1 / dy) (1 / dz))
                      * (1 / dy / std_max3 (1 / dx) (1 / dy) (1 / dz))))
    by auto 12 with qpos.
  destruct (Init3D_closed dx dy dz sx sy sz Hx Hy Hz) as (x5 & y5 & z5 & E).
  cbv zeta in E.
  split; [exact Hr|].
  split; [apply div_pos, Hr|].
  split; [apply div_pos, Hr|].
  split; [rewrite E; eauto|].
  split; [exists x5, y5, z5; exact E|].
  reflexivity.
Qed.

Lemma denominator_positive_witness :
  (0 < 1 /\ 0 < 2 /\ 0 < 3) /\
  is_Some (InitializeStencilCoefficients WARPX_DIM_3D (1, 2, 3) [] [] []) /\
  InitializeStencilCoefficients WARPX_DIM_3D (0, 2, 3) [] [] [] = None.
Proof.
  split; [repeat split|].
  destruct (denominator_positive 1 2 3 [] [] [] eq_refl eq_refl eq_refl)
    as (_ & _ & _ & S & _ & N).
  split; [exact S | exact N].
Defined.

(** C4 as stated fails in binary64 arithmetic.  For the strictly positive
    spacings [(1, 2^600, 2^600)] the ratios [inv_dy/delta] and
    [inv_dz/delta] are [2^-600], their squares underflow to zero, the
    quantity [ry*rz + rz*rx + rx*ry] is exactly zero, the quotient inside
    [beta] is [0/0] and [inv_r_fac] is [1/0]: the builder divides by zero
    and every coefficient after the inverse spacing is NaN. *)
Lemma denominator_zero_in_binary64 :
  let dx := 1%float in
  let dy := 0x1p600%float in
  let dz := 0x1p600%float in
  let inv_dx := (1 / dx)%float in
  let inv_dy := (1 / dy)%float in
  let inv_dz := (1 / dz)%float in
  let delta := Binary64.std_max3 inv_dx inv_dy inv_dz in
  let rx := ((inv_dx / delta) * (inv_dx / delta))%float in
  let ry := ((inv_dy / delta) * (inv_dy / delta))%float in
  let rz := ((inv_dz / delta) * (inv_dz / delta))%float in
  ((0 <? dx) = true /\ (0 <? dy) = true /\ (0 <? dz) = true)%float /\
  (inv_dy / delta = 0x1p-600 /\ ry = 0 /\ rz = 0)%float /\
  (ry * rz + rz * rx + rx * ry = 0)%float /\
  (is_nan (rx * ry * rz / (ry * rz + rz * rx + rx * ry)) = true)%float /\
  (1 / (ry * rz + rz * rx + rx * ry) = infinity)%float /\
  Binary64.InitializeStencilCoefficients WARPX_DIM_3D (dx, dy, dz) [] [] []
    = ([1; nan; nan; nan; nan; 0],
       [0x1p-600; nan; nan; nan; nan; 0],
       [0x1p-600; nan; nan; nan; nan; 0])%float.
Proof.
  cbv zeta. repeat apply conj; vm_compute; reflexivity.
Qed.

(** C5 (as amended).  For positive spacings and the coefficients the
    builder returns, the weights of each axis satisfy
    [alpha + 2 beta1 + 2 beta2 + 4 gamma' = 1/spacing] ([gamma'] the stored
    gamma coefficient), so each operator alone, upward or downward, returns
    exactly 1 on the field that is linear along its axis with slope one
    spacing per cell; the upward operator applied to the downward
    derivative of that field returns exactly 0.  In the XZ build this holds
    for the x and z operators, z running along the second index. *)
Theorem linear_field_slope (dx dy dz : Q) (sx sy sz : list Q) :
  0 < dx -> 0 < dy -> 0 < dz ->
  (exists cx cy cz,
     InitializeStencilCoefficients WARPX_DIM_3D (dx, dy, dz) sx sy sz
       = Some (cx, cy, cz) /\
     coef cx 1 + 2 * coef cx 2 + 2 * coef cx 3 + 4 * coef cx 4 == 1 / dx /\
     coef cy 1 + 2 * coef cy 2 + 2 * coef cy 3 + 4 * coef cy 4 == 1 / dy /\
     coef cz 1 + 2 * coef cz 2 + 2 * coef cz 3 + 4 * coef cz 4 == 1 / dz /\
     forall (n i j k : Z),
       UpwardDx WARPX_DIM_3D (linear_x dx) cx n i j k == 1 /\
       DownwardDx WARPX_DIM_3D (linear_x dx) cx n i j k == 1 /\
       UpwardDy WARPX_DIM_3D (linear_y dy) cy n i j k == 1 /\
       DownwardDy WARPX_DIM_3D (linear_y dy) cy n i j k == 1 /\
       UpwardDz WARPX_DIM_3D (linear_z dz) cz n i j k == 1 /\
       DownwardDz WARPX_DIM_3D (linear_z dz) cz n i j k == 1 /\
       UpwardDx WARPX_DIM_3D
         (DownwardDx WARPX_DIM_3D (linear_x dx) cx n) cx n i j k == 0 /\
       UpwardDy WARPX_DIM_3D
         (DownwardDy WARPX_DIM_3D (linear_y dy) cy n) cy n i j k == 0 /\
       UpwardDz WARPX_DIM_3D
         (DownwardDz WARPX_DIM_3D (linear_z dz) cz n) cz n i j k == 0) /\
  (exists cx cy cz,
     InitializeStencilCoefficients WARPX_DIM_XZ (dx, dy, dz) sx sy sz
       = Some (cx, cy, cz) /\
     coef cx 1 + 2 * coef cx 2 + 2 * coef cx 3 + 4 * coef cx 4 == 1 / dx /\
     coef cz 1 + 2 * coef cz 2 + 2 * coef cz 3 + 4 * coef cz 4 == 1 / dz /\
     forall (n i j k : Z),
       UpwardDx WARPX_DIM_XZ (linear_x dx) cx n i j k == 1 /\
       DownwardDx WARPX_DIM_XZ (linear_x dx) cx n i j k == 1 /\
       UpwardDz WARPX_DIM_XZ (linear_y dz) cz n i j k == 1 /\
       DownwardDz WARPX_DIM_XZ (linear_y dz) cz n i j k == 1 /\
       UpwardDx WARPX_DIM_XZ
         (DownwardDx WARPX_DIM_XZ (linear_x dx) cx n) cx n i j k == 0 /\
       UpwardDz WARPX_DIM_XZ
         (DownwardDz WARPX_DIM_XZ (linear_y dz) cz n) cz n i j k == 0).
Proof.
  intros Hx Hy Hz.
  assert (Nx : ~ dx == 0) by (apply Qpos_nonzero, Hx).
  assert (Ny : ~ dy == 0) by (apply Qpos_nonzero, Hy).
  assert (Nz : ~ dz == 0) by (apply Qpos_nonzero, Hz).
  split.
  - destruct (Init3D_shape dx dy dz sx sy sz Hx Hy Hz)
      as (rx & ry & rz & beta & gx & gy & gz & x5 & y5 & z5 & E).
    eexists _, _, _. split; [exact E|].
    repeat first [apply conj | intros n i j k];
      stencil_on_linear; field; assumption.
  - destruct (InitXZ_shape dx dy dz sx sy sz Hx Hy Hz)
      as (rx & rz & x5 & y5 & z5 & E).
    eexists _, _, _. split; [exact E|].
    repeat first [apply conj | intros n i j k];
      stencil_on_linear; field; assumption.
Qed.

Lemma linear_field_slope_witness :
  (0 < 1 /\ 0 < 2 /\ 0 < 3) /\
  exists cx cy cz,
    InitializeStencilCoefficients WARPX_DIM_3D (1, 2, 3) [] [] []
      = Some (cx, cy, cz) /\
    UpwardDx WARPX_DIM_3D (linear_x 1) cx 6 0 0 0 == 1 /\
    DownwardDz WARPX_DIM_3D (linear_z 3) cz 6 5 5 5 == 1.
Proof.
  split; [repeat split|].
  destruct (linear_field_slope 1 2 3 [] [] [] eq_refl eq_refl eq_refl)
    as [(cx & cy & cz & E & _ & _ & _ & H) _].
  exists cx, cy, cz. split; [exact E|]. split.
  - exact (proj1 (H 6%Z 0%Z 0%Z 0%Z)).
  - exact (proj1 (proj2 (proj2 (proj2 (proj2 (proj2 (H 6%Z 5%Z 5%Z 5%Z))))))).
Defined.

(** C5 as stated fails for the composition.  With unit spacings, the
    downward x-derivative of [F(i) = i] is the constant field 1, and the
    upward x-derivative of that field at the origin is 0, not 1. *)
Lemma down_then_up_on_linear_field_is_zero :
  exists cx cy cz,
    InitializeStencilCoefficients WARPX_DIM_3D (1, 1, 1) [] [] []
      = Some (cx, cy, cz) /\
    DownwardDx WARPX_DIM_3D (linear_x 1) cx 6 0 0 0 == 1 /\
    UpwardDx WARPX_DIM_3D
      (DownwardDx WARPX_DIM_3D (linear_x 1) cx 6) cx 6 0 0 0 == 0 /\
    ~ UpwardDx WARPX_DIM_3D
      (DownwardDx WARPX_DIM_3D (linear_x 1) cx 6) cx 6 0 0 0 == 1.
Proof.
  eexists _, _, _. split; [vm_compute; reflexivity|].
  repeat apply conj; vm_compute; solve [reflexivity | discriminate].
Qed.

(** C6.  On a globally constant field each of the six operators returns
    exactly 0, for every coefficient vector, every index and both builds. *)
Theorem constant_field_derivative_zero
  (dim : WARPX_DIM) (c : Q) (coefs : list Q) (n i j k : Z) :
  UpwardDx dim (constant_field c) coefs n i j k == 0 /\
  DownwardDx dim (constant_field c) coefs n i j k == 0 /\
  UpwardDy dim (constant_field c) coefs n i j k == 0 /\
  DownwardDy dim (constant_field c) coefs n i j k == 0 /\
  UpwardDz dim (constant_field c) coefs n i j k == 0 /\
  DownwardDz dim (constant_field c) coefs n i j k == 0.
Proof.
  unfold UpwardDx, DownwardDx, UpwardDy, DownwardDy, UpwardDz, DownwardDz,
    constant_field.
  destruct dim; repeat apply conj; ring.
Qed.

(** C7.  In the XZ build [UpwardDy] and [DownwardDy] return 0 for every
    field, coefficient vector and index.  The remaining upward operators
    have no y term: [UpwardDx] reads [alphax] and [betaxz] only, [UpwardDz]
    reads [alphaz] and [betazx] only.  And for positive spacings the
    builder returns three vectors of six entries in which every y-related
    entry is present and set from a zero coefficient: [betaxy] of the x
    vector, [betazy] of the z vector and [alphay] and both betas of the y
    vector hold the constant 0, and the gamma entry of each vector holds
    the constant 0 multiplied by the inverse spacing, as the source stores
    it. *)
Theorem XZ_third_axis_vanishes :
  (forall (F : Array4) (coefs_y : list Q) (n i j k : Z),
     UpwardDy WARPX_DIM_XZ F coefs_y n i j k = 0 /\
     DownwardDy WARPX_DIM_XZ F coefs_y n i j k = 0) /\
  (forall (F : Array4) (c c' : list Q) (n i j k : Z),
     (coef c 1 = coef c' 1 -> coef c 3 = coef c' 3 ->
      UpwardDx WARPX_DIM_XZ F c n i j k = UpwardDx WARPX_DIM_XZ F c' n i j k) /\
     (coef c 1 = coef c' 1 -> coef c 2 = coef c' 2 ->
      UpwardDz WARPX_DIM_XZ F c n i j k = UpwardDz WARPX_DIM_XZ F c' n i j k)) /\
  (forall (dx dy dz : Q) (sx sy sz : list Q),
     0 < dx -> 0 < dy -> 0 < dz ->
     exists cx cy cz,
       InitializeStencilCoefficients WARPX_DIM_XZ (dx, dy, dz) sx sy sz
         = Some (cx, cy, cz) /\
       length cx = 6%nat /\ length cy = 6%nat /\ length cz = 6%nat /\
       cx !! 2%nat = Some 0 /\
       cz !! 3%nat = Some 0 /\
       cy !! 1%nat = Some 0 /\ cy !! 2%nat = Some 0 /\ cy !! 3%nat = Some 0 /\
       cx !! 4%nat = Some (0 * (1 / dx)) /\
       cy !! 4%nat = Some (0 * (1 / dy)) /\
       cz !! 4%nat = Some (0 * (1 / dz))).
Proof.
  split; [|split].
  - intros. split; reflexivity.
  - intros F c c' n i j k. unfold UpwardDx, UpwardDz. cbv zeta.
    split; intros -> ->; reflexivity.
  - intros dx dy dz sx sy sz Hx Hy Hz.
    destruct (InitXZ_shape dx dy dz sx sy sz Hx Hy Hz)
      as (rx & rz & x5 & y5 & z5 & E).
    eexists _, _, _. split; [exact E|].
    repeat apply conj; reflexivity.
Qed.

Lemma XZ_third_axis_vanishes_witness :
  (0 < 1 /\ 0 < 1 /\ 0 < 2) /\
  exists cx cy cz,
    InitializeStencilCoefficients WARPX_DIM_XZ (1, 1, 2) [] [] []
      = Some (cx, cy, cz) /\
    length cx = 6%nat /\ length cy = 6%nat /\ length cz = 6%nat /\
    cx !! 2%nat = Some 0 /\
    cz !! 3%nat = Some 0 /\
    cy !! 1%nat = Some 0 /\ cy !! 2%nat = Some 0 /\ cy !! 3%nat = Some 0 /\
    cx !! 4%nat = Some (0 * (1 / 1)) /\
    cy !! 4%nat = Some (0 * (1 / 1)) /\
    cz !! 4%nat = Some (0 * (1 / 2)).
Proof.
  split; [repeat split|].
  exact (proj2 (proj2 XZ_third_axis_vanishes) 1 1 2 [] [] []
           eq_refl eq_refl eq_refl).
Defined.

(** ** Attribute registration *)

Section Registration.

Import WarpXParticleContainer.

Variable WARPX_DIM_RZ : bool.

Local Abbreviation nattribs := (Z.of_nat (PIdx.nattribs WARPX_DIM_RZ)).
Local Abbreviation NumRealComps := (NumRealComps WARPX_DIM_RZ).
Local Abbreviation AddRealComp := (AddRealComp WARPX_DIM_RZ).
Local Abbreviation AddRealComps := (AddRealComps WARPX_DIM_RZ).

Lemma AddRealComp_comps (name : string) (comm : bool) (pc : t) :
  particle_comps (AddRealComp name comm pc) !! name = Some (NumRealComps pc) /\
  particle_runtime_comps (AddRealComp name comm pc) !! name
    = Some (NumRealComps pc - nattribs)%Z.
Proof.
  unfold WarpXParticleContainer.AddRealComp, AddRealComp_amrex.
  cbn [particle_comps particle_runtime_comps].
  rewrite !lookup_insert_eq. split; reflexivity.
Qed.

Lemma AddRealComp_other (name name' : string) (comm : bool) (pc : t) :
  name <> name' ->
  particle_comps (AddRealComp name comm pc) !! name' = particle_comps pc !! name' /\
  particle_runtime_comps (AddRealComp name comm pc) !! name'
    = particle_runtime_comps pc !! name'.
Proof.
  intros N. unfold WarpXParticleContainer.AddRealComp, AddRealComp_amrex.
  cbn [particle_comps particle_runtime_comps].
  rewrite !lookup_insert_ne by exact N. split; reflexivity.
Qed.

Lemma AddRealComp_count (name : string) (comm : bool) (pc : t) :
  NumRealComps (AddRealComp name comm pc) = (NumRealComps pc + 1)%Z.
Proof.
  unfold WarpXParticleContainer.NumRealComps, WarpXParticleContainer.AddRealComp,
    AddRealComp_amrex.
  cbn [m_num_runtime_real]. lia.
Qed.

Lemma NumRealComps_lower (pc : t) : (nattribs <= NumRealComps pc)%Z.
Proof. unfold WarpXParticleContainer.NumRealComps. lia. Qed.

Lemma AddRealComps_count (names : list (string * bool)) : forall pc : t,
  NumRealComps (AddRealComps names pc)
    = (NumRealComps pc + Z.of_nat (length names))%Z.
Proof.
  induction names as [|[n c] names IH]; intros pc.
  - cbn. lia.
  - unfold WarpXParticleContainer.AddRealComps in *. cbn [fold_left fst snd length].
    rewrite IH, AddRealComp_count. lia.
Qed.

Lemma AddRealComps_other (name : string) (names : list (string * bool)) :
  forall pc : t,
  Forall (fun nc => fst nc <> name) names ->
  particle_comps (AddRealComps names pc) !! name = particle_comps pc !! name /\
  particle_runtime_comps (AddRealComps names pc) !! name
    = particle_runtime_comps pc !! name.
Proof.
  induction names as [|[n c] names IH]; intros pc H.
  - split; reflexivity.
  - apply Forall_cons_1 in H as [Hn H]. cbn [fst] in Hn.
    unfold WarpXParticleContainer.AddRealComps in *. cbn [fold_left fst snd].
    destruct (IH (AddRealComp n c pc) H) as [-> ->].
    apply AddRealComp_other, Hn.
Qed.

(** C9 (as amended).  [AddRealComp (name)] records [name] in
    [particle_comps] at the number of real components existing at that
    time and in [particle_runtime_comps] at that slot minus
    [PIdx::nattribs]; the slot is at least [PIdx::nattribs]; every
    registration raises the next slot by one, so the registration that
    follows [k] others receives the first slot plus [k]; and later
    registrations of other names leave the two entries of [name] as they
    are. *)
Theorem AddRealComp_slots (name : string) (comm : bool) (pc : t) :
  let slot := NumRealComps pc in
  let pc1 := AddRealComp name comm pc in
  particle_comps pc1 !! name = Some slot /\
  particle_runtime_comps pc1 !! name = Some (slot - nattribs)%Z /\
  (nattribs <= slot)%Z /\
  NumRealComps pc1 = (slot + 1)%Z /\
  (forall later : list (string * bool),
     NumRealComps (AddRealComps later pc1)
       = (slot + 1 + Z.of_nat (length later))%Z) /\
  (forall later : list (string * bool),
     Forall (fun nc => fst nc <> name) later ->
     particle_comps (AddRealComps later pc1) !! name = Some slot /\
     particle_runtime_comps (AddRealComps later pc1) !! name
       = Some (slot - nattribs)%Z).
Proof.
  cbv zeta. destruct (AddRealComp_comps name comm pc) as [H1 H2].
  repeat apply conj.
  - exact H1.
  - exact H2.
  - apply NumRealComps_lower.
  - apply AddRealComp_count.
  - intros later. rewrite AddRealComps_count, AddRealComp_count. reflexivity.
  - intros later H.
    destruct (AddRealComps_other name later (AddRealComp name comm pc) H)
      as [-> ->].
    split; assumption.
Qed.

End Registration.

Lemma AddRealComp_slots_witness :
  Forall (fun nc : string * bool => fst nc <> "xold"%string)
    [("yold"%string, true); ("zold"%string, true)] /\
  WarpXParticleContainer.particle_comps
    (WarpXParticleContainer.AddRealComps false
       [("yold"%string, true); ("zold"%string, true)]
       (WarpXParticleContainer.AddRealComp false "xold" true fresh_container))
    !! "xold"%string = Some 10%Z.
Proof.
  assert (H : Forall (fun nc : string * bool => fst nc <> "xold"%string)
                [("yold"%string, true); ("zold"%string, true)])
    by (repeat constructor; discriminate).
  split; [exact H|].
  destruct (AddRealComp_slots false "xold" true fresh_container)
    as (_ & _ & _ & _ & _ & K).
  exact (proj1 (K _ H)).
Defined.

(** C9 as stated fails in its last clause.  Registering the same name a
    second time rebinds it: after [AddRealComp ("optical_depth")] twice on
    a container without runtime components, the name is bound to slot 11,
    no longer to the slot 10 it was first assigned. *)
Lemma AddRealComp_same_name_rebinds :
  let pc1 := WarpXParticleContainer.AddRealComp false "optical_depth" true
               fresh_container in
  let pc2 := WarpXParticleContainer.AddRealComp false "optical_depth" true pc1 in
  WarpXParticleContainer.particle_comps pc1 !! "optical_depth"%string = Some 10%Z /\
  WarpXParticleContainer.particle_comps pc2 !! "optical_depth"%string = Some 11%Z /\
  WarpXParticleContainer.particle_runtime_comps pc1 !! "optical_depth"%string
    = Some 0%Z /\
  WarpXParticleContainer.particle_runtime_comps pc2 !! "optical_depth"%string
    = Some 1%Z /\
  WarpXParticleContainer.particle_comps pc2 !! "optical_depth"%string
    <> WarpXParticleContainer.particle_comps pc1 !! "optical_depth"%string.
Proof.
  cbv zeta. repeat apply conj; try (vm_compute; reflexivity).
  vm_compute. discriminate.
Qed.

(** ** The particle store *)

Section StoreFacts.

Context {Engine : Type}.
Implicit Types (w : World Engine) (t : nat) (v : Q).

Lemma peek_poke_eq w t comp i v :
  is_Some (peek w t comp i) -> peek (poke w t comp i v) t comp i = Some v.
Proof.
  unfold peek, poke; cbn [tiles m_rdata]. rewrite fn_lookup_insert; cbn [m_rdata].
  rewrite list_lookup_alter_eq.
  destruct (m_rdata (tiles w t) !! comp) as [arr|]; cbn; [|intros [? ?]; discriminate].
  intros [x Hx]. apply list_lookup_insert_eq. eapply lookup_lt_Some, Hx.
Qed.

Lemma peek_poke_ne w t comp i v t' comp' i' :
  (t, comp, i) <> (t', comp', i') ->
  peek (poke w t comp i v) t' comp' i' = peek w t' comp' i'.
Proof.
  intros Hne. unfold peek, poke; cbn [tiles].
  destruct (decide (t = t')) as [<-|Ht].
  - rewrite fn_lookup_insert; cbn [m_rdata].
    destruct (decide (comp = comp')) as [<-|Hc].
    + rewrite list_lookup_alter_eq.
      destruct (m_rdata (tiles w t) !! comp) as [arr|]; cbn; [|reflexivity].
      apply list_lookup_insert_ne. congruence.
    + rewrite list_lookup_alter_ne by exact Hc. reflexivity.
  - rewrite fn_lookup_insert_ne by exact Ht. reflexivity.
Qed.

Lemma peek_poke_is_Some w t comp i v t' comp' i' :
  is_Some (peek (poke w t comp i v) t' comp' i') <-> is_Some (peek w t' comp' i').
Proof.
  destruct (decide ((t, comp, i) = (t', comp', i'))) as [E|Hne].
  - inversion E; subst. split; intros H.
    + unfold peek, poke in *; cbn [tiles] in *.
      rewrite fn_lookup_insert in H; cbn [m_rdata] in H.
      rewrite list_lookup_alter_eq in H.
      destruct (m_rdata (tiles w t') !! comp') as [arr|]; cbn in *; [|exact H].
      destruct H as [x Hx]. apply lookup_lt_is_Some.
      apply lookup_lt_Some in Hx. rewrite length_insert in Hx. exact Hx.
    + rewrite peek_poke_eq by exact H. eauto.
  - rewrite peek_poke_ne by exact Hne. reflexivity.
Qed.

Lemma peek_poke_id w t i z t' comp' i' :
  peek (poke_id w t i z) t' comp' i' = peek w t' comp' i'.
Proof.
  unfold peek, poke_id; cbn [tiles].
  destruct (decide (t = t')) as [<-|Ht].
  - rewrite fn_lookup_insert. reflexivity.
  - rewrite fn_lookup_insert_ne by exact Ht. reflexivity.
Qed.

Lemma peek_runtime_poke w t comp i v t' comp' i' :
  peek_runtime (poke w t comp i v) t' comp' i' = peek_runtime w t' comp' i'.
Proof.
  unfold peek_runtime, poke; cbn [tiles].
  destruct (decide (t = t')) as [<-|Ht].
  - rewrite fn_lookup_insert. reflexivity.
  - rewrite fn_lookup_insert_ne by exact Ht. reflexivity.
Qed.

Lemma peek_runtime_poke_id w t i z t' comp' i' :
  peek_runtime (poke_id w t i z) t' comp' i' = peek_runtime w t' comp' i'.
Proof.
  unfold peek_runtime, poke_id; cbn [tiles].
  destruct (decide (t = t')) as [<-|Ht].
  - rewrite fn_lookup_insert. reflexivity.
  - rewrite fn_lookup_insert_ne by exact Ht. reflexivity.
Qed.

Lemma peek_aos_poke w t comp i v t' i' :
  peek_aos (poke w t comp i v) t' i' = peek_aos w t' i'.
Proof.
  unfold peek_aos, poke; cbn [tiles].
  destruct (decide (t = t')) as [<-|Ht].
  - rewrite fn_lookup_insert. reflexivity.
  - rewrite fn_lookup_insert_ne by exact Ht. reflexivity.
Qed.

Lemma peek_aos_poke_id_eq w t i z :
  peek_aos (poke_id w t i z) t i =
  (fun p => {| pos := pos p; id := z; cpu := cpu p |}) <$> peek_aos w t i.
Proof.
  unfold peek_aos, poke_id; cbn [tiles].
  rewrite fn_lookup_insert; cbn [m_aos]. apply list_lookup_alter_eq.
Qed.

Lemma peek_aos_poke_id_ne w t i z t' i' :
  (t, i) <> (t', i') -> peek_aos (poke_id w t i z) t' i' = peek_aos w t' i'.
Proof.
  intros Hne. unfold peek_aos, poke_id; cbn [tiles].
  destruct (decide (t = t')) as [<-|Ht].
  - rewrite fn_lookup_insert; cbn [m_aos].
    apply list_lookup_alter_ne. congruence.
  - rewrite fn_lookup_insert_ne by exact Ht. reflexivity.
Qed.

Lemma runtime_idata_poke w t comp i v t' :
  m_runtime_idata (tiles (poke w t comp i v) t') = m_runtime_idata (tiles w t').
Proof.
  unfold poke; cbn [tiles].
  destruct (decide (t = t')) as [<-|Ht].
  - rewrite fn_lookup_insert. reflexivity.
  - rewrite fn_lookup_insert_ne by exact Ht. reflexivity.
Qed.

Lemma runtime_idata_poke_id w t i z t' :
  m_runtime_idata (tiles (poke_id w t i z) t') = m_runtime_idata (tiles w t').
Proof.
  unfold poke_id; cbn [tiles].
  destruct (decide (t = t')) as [<-|Ht].
  - rewrite fn_lookup_insert. reflexivity.
  - rewrite fn_lookup_insert_ne by exact Ht. reflexivity.
Qed.

Lemma aos_length_poke w t comp i v t' :
  length (m_aos (tiles (poke w t comp i v) t')) = length (m_aos (tiles w t')).
Proof.
  unfold poke; cbn [tiles].
  destruct (decide (t = t')) as [<-|Ht].
  - rewrite fn_lookup_insert. reflexivity.
  - rewrite fn_lookup_insert_ne by exact Ht. reflexivity.
Qed.

Lemma aos_length_poke_id w t i z t' :
  length (m_aos (tiles (poke_id w t i z) t')) = length (m_aos (tiles w t')).
Proof.
  unfold poke_id; cbn [tiles].
  destruct (decide (t = t')) as [<-|Ht].
  - rewrite fn_lookup_insert; cbn [m_aos]. apply length_alter.
  - rewrite fn_lookup_insert_ne by exact Ht. reflexivity.
Qed.


Lemma peek_set_engine w e t comp i : peek (set_engine w e) t comp i = peek w t comp i.
Proof. reflexivity. Qed.

Lemma peek_aos_set_engine w e t i : peek_aos (set_engine w e) t i = peek_aos w t i.
Proof. reflexivity. Qed.

Lemma allocated_true w t i :
  allocated w t i = true <->
  is_Some (peek_aos w t i) /\ forall comp, (comp < 10)%nat -> is_Some (peek w t comp i).
Proof.
  unfold allocated. split.
  - destruct (peek_aos w t i) as [p|]; [|discriminate].
    intros H. split; [eauto|]. intros comp Hc.
    rewrite forallb_forall in H. specialize (H comp).
    destruct (peek w t comp i); [eauto|].
    exfalso. assert (false = true) as X; [|discriminate X].
    apply H. apply in_seq. lia.
  - intros [[p ->] H]. apply forallb_forall. intros comp Hc.
    apply in_seq in Hc. destruct (H comp) as [v ->]; [lia|reflexivity].
Qed.

Lemma allocated_poke w t comp i v t' i' :
  allocated w t' i' = true -> allocated (poke w t comp i v) t' i' = true.
Proof.
  rewrite !allocated_true. intros [Ha Hr]. split.
  - rewrite peek_aos_poke. exact Ha.
  - intros c Hc. apply peek_poke_is_Some, Hr, Hc.
Qed.

Lemma allocated_poke_id w t i z t' i' :
  allocated w t' i' = true -> allocated (poke_id w t i z) t' i' = true.
Proof.
  rewrite !allocated_true. intros [Ha Hr]. split.
  - destruct (decide ((t, i) = (t', i'))) as [E|Hne].
    + inversion E; subst. rewrite peek_aos_poke_id_eq.
      destruct Ha as [p ->]. cbn. eauto.
    + rewrite peek_aos_poke_id_ne by exact Hne. exact Ha.
  - intros c Hc. rewrite peek_poke_id. apply Hr, Hc.
Qed.

Lemma allocated_set_engine w e t i : allocated (set_engine w e) t i = allocated w t i.
Proof. reflexivity. Qed.

Lemma write_rdata_run w t comp i v :
  is_Some (peek w t comp i) -> write_rdata t comp i v w = Some (tt, poke w t comp i v).
Proof. intros [x Hx]. unfold write_rdata. rewrite Hx. reflexivity. Qed.

Lemma write_id_run w t i z :
  is_Some (peek_aos w t i) -> write_id t i z w = Some (tt, poke_id w t i z).
Proof. intros [x Hx]. unfold write_id. rewrite Hx. reflexivity. Qed.

Lemma read_rdata_run w t comp i :
  is_Some (peek w t comp i) ->
  read_rdata t comp i w = Some (default 0 (peek w t comp i), w).
Proof. intros [x Hx]. unfold read_rdata. rewrite Hx. reflexivity. Qed.

End StoreFacts.

(** ** One call of the transform *)

Ltac pidx := unfold PIdx.w, PIdx.ux, PIdx.uy, PIdx.uz, PIdx.Ex, PIdx.Ey,
  PIdx.Ez, PIdx.Bx, PIdx.By, PIdx.Bz in *.

Ltac addr_ne :=
  let E := fresh "E" in
  intros E; pidx; inversion E; subst; solve [congruence | lia].


Section TransformFacts.

Context {Engine : Type}.
Variable m_e : Q.
Variable self : PairGenerationTransformFunc.t (Engine := Engine).
Variables dst1 dst2 src : nat.
Implicit Types (w : World Engine) (evs : list Event).

Local Abbreviation step := (transformed m_e self dst1 dst2 src).
Local Abbreviation step_all := (transformed_all m_e self dst1 dst2 src).
Local Abbreviation answer := (sampled m_e self src).
Local Abbreviation writes := (writes_of dst1 dst2 src).
Local Abbreviation all_allocated := (slots_allocated dst1 dst2 src).

Lemma operator_call_run (ev : Event) w :
  allocated w src (i_src ev) = true ->
  allocated w dst1 (i_dst1 ev) = true ->
  allocated w dst2 (i_dst2 ev) = true ->
  PairGenerationTransformFunc.operator_call m_e self dst1 dst2 src
    (i_src ev) (i_dst1 ev) (i_dst2 ev) w = Some (tt, step ev w).
Proof.
  intros Hs H1 H2.
  apply allocated_true in Hs as [Hsa Hsr].
  apply allocated_true in H1 as [_ H1r].
  apply allocated_true in H2 as [_ H2r].
  unfold PairGenerationTransformFunc.operator_call, mbind'.
  rewrite !read_rdata_run by (apply Hsr; unfold PIdx.w, PIdx.ux, PIdx.uy, PIdx.uz,
    PIdx.Ex, PIdx.Ey, PIdx.Ez, PIdx.Bx, PIdx.By, PIdx.Bz; lia).
  unfold PairGenerationTransformFunc.generate.
  repeat (rewrite write_rdata_run;
    [| rewrite ?peek_poke_is_Some, ?peek_set_engine;
       first [apply H1r | apply H2r];
       unfold PIdx.w, PIdx.ux, PIdx.uy, PIdx.uz; lia]).
  rewrite write_id_run; [reflexivity|].
  rewrite !peek_aos_poke. exact Hsa.
Qed.


Lemma transformed_peek_other (ev : Event) w t comp i :
  (t, i) <> (dst1, i_dst1 ev) -> (t, i) <> (dst2, i_dst2 ev) ->
  peek (step ev w) t comp i = peek w t comp i.
Proof.
  intros N1 N2. unfold transformed. cbv zeta.
  rewrite peek_poke_id. rewrite !peek_poke_ne by addr_ne. reflexivity.
Qed.

Lemma transformed_peek_fields (ev : Event) w t comp i :
  (4 <= comp)%nat -> peek (step ev w) t comp i = peek w t comp i.
Proof.
  intros Hc. unfold transformed. cbv zeta.
  rewrite peek_poke_id. rewrite !peek_poke_ne by addr_ne. reflexivity.
Qed.

Lemma transformed_peek_runtime (ev : Event) w t comp i :
  peek_runtime (step ev w) t comp i = peek_runtime w t comp i.
Proof.
  unfold transformed. cbv zeta.
  rewrite peek_runtime_poke_id, !peek_runtime_poke. reflexivity.
Qed.

Lemma transformed_runtime_idata (ev : Event) w t :
  m_runtime_idata (tiles (step ev w) t) = m_runtime_idata (tiles w t).
Proof.
  unfold transformed. cbv zeta.
  rewrite runtime_idata_poke_id, !runtime_idata_poke. reflexivity.
Qed.

Lemma transformed_aos_length (ev : Event) w t :
  length (m_aos (tiles (step ev w) t)) = length (m_aos (tiles w t)).
Proof.
  unfold transformed. cbv zeta.
  rewrite aos_length_poke_id, !aos_length_poke. reflexivity.
Qed.

Lemma transformed_peek_aos_other (ev : Event) w t i :
  (t, i) <> (src, i_src ev) ->
  peek_aos (step ev w) t i = peek_aos w t i.
Proof.
  intros N. unfold transformed. cbv zeta.
  rewrite peek_aos_poke_id_ne by congruence. rewrite !peek_aos_poke. reflexivity.
Qed.

Lemma transformed_peek_aos_src (ev : Event) w :
  peek_aos (step ev w) src (i_src ev) =
  (fun p => {| pos := pos p; id := (-1)%Z; cpu := cpu p |}) <$> peek_aos w src (i_src ev).
Proof.
  unfold transformed. cbv zeta.
  rewrite peek_aos_poke_id_eq. rewrite !peek_aos_poke. reflexivity.
Qed.

Lemma transformed_trace (ev : Event) w :
  trace (step ev w) = trace w ++ writes ev.
Proof.
  unfold transformed, writes_of. cbn [trace poke poke_id set_engine].
  rewrite <- !app_assoc. reflexivity.
Qed.

Lemma transformed_allocated (ev : Event) w t i :
  allocated w t i = true -> allocated (step ev w) t i = true.
Proof.
  intros H. unfold transformed. cbv zeta.
  apply allocated_poke_id. do 8 apply allocated_poke. exact H.
Qed.

Lemma transformed_dst1 (ev : Event) w :
  allocated w dst1 (i_dst1 ev) = true ->
  (dst1, i_dst1 ev) <> (dst2, i_dst2 ev) ->
  let out := fst (answer w (i_src ev)) in
  peek (step ev w) dst1 PIdx.w (i_dst1 ev) = Some (e_w out) /\
  peek (step ev w) dst1 PIdx.ux (i_dst1 ev) = Some (e_px out * (1 / m_e)) /\
  peek (step ev w) dst1 PIdx.uy (i_dst1 ev) = Some (e_py out * (1 / m_e)) /\
  peek (step ev w) dst1 PIdx.uz (i_dst1 ev) = Some (e_pz out * (1 / m_e)).
Proof.
  intros Ha N. apply allocated_true in Ha as [_ Hr]. cbv zeta.
  unfold transformed. cbv zeta.
  repeat apply conj; rewrite peek_poke_id;
    repeat (rewrite peek_poke_ne by addr_ne);
    (apply peek_poke_eq; rewrite ?peek_poke_is_Some, ?peek_set_engine;
     apply Hr; pidx; lia).
Qed.

Lemma transformed_dst2 (ev : Event) w :
  allocated w dst2 (i_dst2 ev) = true ->
  let out := fst (answer w (i_src ev)) in
  peek (step ev w) dst2 PIdx.w (i_dst2 ev) = Some (p_w out) /\
  peek (step ev w) dst2 PIdx.ux (i_dst2 ev) = Some (p_px out * (1 / m_e)) /\
  peek (step ev w) dst2 PIdx.uy (i_dst2 ev) = Some (p_py out * (1 / m_e)) /\
  peek (step ev w) dst2 PIdx.uz (i_dst2 ev) = Some (p_pz out * (1 / m_e)).
Proof.
  intros Ha. apply allocated_true in Ha as [_ Hr]. cbv zeta.
  unfold transformed. cbv zeta.
  repeat apply conj; rewrite peek_poke_id;
    repeat (rewrite peek_poke_ne by addr_ne);
    (apply peek_poke_eq; rewrite ?peek_poke_is_Some, ?peek_set_engine;
     apply Hr; pidx; lia).
Qed.

End TransformFacts.

(** ** The transform over a sequence of events *)

Lemma Qsum_pointwise {A : Type} (f g h : A -> Q) (l : list A) :
  (forall x, In x l -> f x + g x == h x) ->
  Qsum (map f l) + Qsum (map g l) == Qsum (map h l).
Proof.
  induction l as [|x l IH]; intros H; cbn [map Qsum fold_right].
  - reflexivity.
  - fold (Qsum (map f l)) (Qsum (map g l)) (Qsum (map h l)).
    assert (Hx := H x (or_introl eq_refl)).
    assert (Hl := IH (fun y Hy => H y (or_intror Hy))).
    lra.
Qed.


Section SequenceFacts.

Context {Engine : Type}.
Variable m_e : Q.
Variable self : PairGenerationTransformFunc.t (Engine := Engine).
Variables dst1 dst2 src : nat.
Implicit Types (w : World Engine) (evs : list Event).

Local Abbreviation step := (transformed m_e self dst1 dst2 src).
Local Abbreviation step_all := (transformed_all m_e self dst1 dst2 src).
Local Abbreviation answer := (sampled m_e self src).
Local Abbreviation writes := (writes_of dst1 dst2 src).
Local Abbreviation all_allocated := (slots_allocated dst1 dst2 src).

Lemma slots_allocated_In w evs ev :
  all_allocated w evs = true -> In ev evs ->
  allocated w src (i_src ev) = true /\ allocated w dst1 (i_dst1 ev) = true /\
  allocated w dst2 (i_dst2 ev) = true.
Proof.
  unfold slots_allocated. rewrite forallb_forall. intros H Hin.
  specialize (H ev Hin). apply andb_prop in H as [H H2].
  apply andb_prop in H as [H0 H1]. auto.
Qed.

Lemma slots_allocated_transformed w evs ev :
  all_allocated w evs = true -> all_allocated (step ev w) evs = true.
Proof.
  unfold slots_allocated. rewrite !forallb_forall. intros H x Hx.
  specialize (H x Hx). apply andb_prop in H as [H H2].
  apply andb_prop in H as [H0 H1].
  rewrite !transformed_allocated by assumption. reflexivity.
Qed.

Lemma transform_all_run evs : forall w,
  all_allocated w evs = true ->
  transform_all m_e self dst1 dst2 src evs w = Some (tt, step_all evs w).
Proof.
  induction evs as [|ev evs IH]; intros w H.
  - reflexivity.
  - cbn [transform_all transformed_all fold_left]. unfold mbind'.
    unfold slots_allocated in H; cbn [forallb] in H. apply andb_prop in H as [Hev H].
    apply andb_prop in Hev as [Hev H2]. apply andb_prop in Hev as [H0 H1].
    rewrite operator_call_run by assumption.
    apply IH. apply slots_allocated_transformed, H.
Qed.

Lemma transformed_all_trace evs : forall w,
  trace (step_all evs w) = trace w ++ flat_map writes evs.
Proof.
  induction evs as [|ev evs IH]; intros w; unfold transformed_all; cbn [fold_left flat_map].
  - rewrite app_nil_r. reflexivity.
  - fold (step_all evs (step ev w)).
    rewrite IH, transformed_trace, <- app_assoc. reflexivity.
Qed.

Lemma transformed_all_peek_other evs t comp i : forall w,
  (forall ev, In ev evs ->
     (t, i) <> (dst1, i_dst1 ev) /\ (t, i) <> (dst2, i_dst2 ev)) ->
  peek (step_all evs w) t comp i = peek w t comp i.
Proof.
  induction evs as [|ev evs IH]; intros w H; unfold transformed_all; cbn [fold_left].
  - reflexivity.
  - fold (step_all evs (step ev w)).
    rewrite IH by (intros; apply H; right; assumption).
    destruct (H ev (or_introl eq_refl)).
    apply transformed_peek_other; assumption.
Qed.

Lemma transformed_all_peek_fields evs t comp i : forall w,
  (4 <= comp)%nat -> peek (step_all evs w) t comp i = peek w t comp i.
Proof.
  induction evs as [|ev evs IH]; intros w H; unfold transformed_all; cbn [fold_left].
  - reflexivity.
  - fold (step_all evs (step ev w)).
    rewrite IH by exact H. apply transformed_peek_fields, H.
Qed.

Lemma transformed_all_aos_length evs t : forall w,
  length (m_aos (tiles (step_all evs w) t)) = length (m_aos (tiles w t)).
Proof.
  induction evs as [|ev evs IH]; intros w; unfold transformed_all; cbn [fold_left].
  - reflexivity.
  - fold (step_all evs (step ev w)).
    rewrite IH. apply transformed_aos_length.
Qed.

Lemma transformed_destroyed (ev : Event) w t i p :
  peek_aos w t i = Some p -> id p = (-1)%Z ->
  exists p', peek_aos (step ev w) t i = Some p' /\ id p' = (-1)%Z.
Proof.
  intros Hp Hid. destruct (decide ((t, i) = (src, i_src ev))) as [E|N].
  - inversion E; subst. rewrite transformed_peek_aos_src, Hp. cbn. eauto.
  - rewrite transformed_peek_aos_other by exact N. eauto.
Qed.

Lemma transformed_all_destroyed evs t i : forall w p,
  peek_aos w t i = Some p -> id p = (-1)%Z ->
  exists p', peek_aos (step_all evs w) t i = Some p' /\ id p' = (-1)%Z.
Proof.
  induction evs as [|ev evs IH]; intros w p Hp Hid; unfold transformed_all; cbn [fold_left].
  - eauto.
  - fold (step_all evs (step ev w)).
    destruct (transformed_destroyed ev w t i p Hp Hid) as (p' & Hp' & Hid').
    eapply IH; eassumption.
Qed.

Lemma transformed_all_ids evs : forall w ev,
  all_allocated w evs = true -> In ev evs ->
  exists p, peek_aos (step_all evs w) src (i_src ev) = Some p /\ id p = (-1)%Z.
Proof.
  induction evs as [|ev0 evs IH]; intros w ev H Hin; [destruct Hin|].
  unfold transformed_all; cbn [fold_left]. fold (step_all evs (step ev0 w)).
  unfold slots_allocated in H; cbn [forallb] in H. apply andb_prop in H as [Hev H].
  destruct Hin as [->|Hin].
  - apply andb_prop in Hev as [Hev _]. apply andb_prop in Hev as [H0 _].
    apply allocated_true in H0 as [[p Hp] _].
    eapply transformed_all_destroyed.
    + rewrite transformed_peek_aos_src, Hp. reflexivity.
    + reflexivity.
  - apply IH; [|exact Hin]. apply slots_allocated_transformed, H.
Qed.

Lemma weight_writes_flat evs :
  dst1 <> dst2 ->
  weight_writes dst1 (flat_map writes evs) = map i_dst1 evs /\
  weight_writes dst2 (flat_map writes evs) = map i_dst2 evs.
Proof.
  intros N. induction evs as [|ev evs [IH1 IH2]]; [split; reflexivity|].
  cbn [flat_map writes app map weight_writes].
  unfold PIdx.w, PIdx.ux, PIdx.uy, PIdx.uz.
  repeat (destruct (decide _) as [[? ?]|?]; try congruence; try discriminate;
          try (exfalso; tauto)).
  all: rewrite ?IH1, ?IH2; split; reflexivity.
Qed.


Lemma sampled_ext w1 w2 i :
  (forall comp, peek w1 src comp i = peek w2 src comp i) ->
  engine w1 = engine w2 -> answer w1 i = answer w2 i.
Proof.
  intros Hp He. unfold sampled, photon_attr. rewrite He, !Hp. reflexivity.
Qed.

Lemma transformed_all_daughters evs : forall w,
  dst1 <> dst2 -> dst1 <> src -> dst2 <> src ->
  all_allocated w evs = true ->
  NoDup (map i_dst1 evs) -> NoDup (map i_dst2 evs) ->
  forall ev, In ev evs ->
  exists e : Engine,
    let out := fst (answer (set_engine w e) (i_src ev)) in
    let w' := step_all evs w in
    peek w' dst1 PIdx.w (i_dst1 ev) = Some (e_w out) /\
    peek w' dst1 PIdx.ux (i_dst1 ev) = Some (e_px out * (1 / m_e)) /\
    peek w' dst1 PIdx.uy (i_dst1 ev) = Some (e_py out * (1 / m_e)) /\
    peek w' dst1 PIdx.uz (i_dst1 ev) = Some (e_pz out * (1 / m_e)) /\
    peek w' dst2 PIdx.w (i_dst2 ev) = Some (p_w out) /\
    peek w' dst2 PIdx.ux (i_dst2 ev) = Some (p_px out * (1 / m_e)) /\
    peek w' dst2 PIdx.uy (i_dst2 ev) = Some (p_py out * (1 / m_e)) /\
    peek w' dst2 PIdx.uz (i_dst2 ev) = Some (p_pz out * (1 / m_e)).
Proof.
  induction evs as [|ev0 evs IH]; intros w N12 N1s N2s H ND1 ND2 ev Hin;
    [destruct Hin|].
  cbn [map] in ND1, ND2.
  assert (F1 := NoDup_cons_1_1 _ _ ND1). apply NoDup_cons_1_2 in ND1.
  assert (F2 := NoDup_cons_1_1 _ _ ND2). apply NoDup_cons_1_2 in ND2.
  unfold slots_allocated in H; cbn [forallb] in H. apply andb_prop in H as [Hev H].
  apply andb_prop in Hev as [Hev H2]. apply andb_prop in Hev as [H0 H1].
  cbv zeta. unfold transformed_all; cbn [fold_left].
  fold (step_all evs (step ev0 w)).
  destruct Hin as [->|Hin].
  - exists (engine w).
    assert (O1 : forall ev', In ev' evs ->
      (dst1, i_dst1 ev) <> (dst1, i_dst1 ev') /\ (dst1, i_dst1 ev) <> (dst2, i_dst2 ev')).
    { intros ev' Hin'. split; [|congruence].
      intros E. apply F1. inversion E as [E']. rewrite E'.
      apply list_elem_of_In, in_map, Hin'. }
    assert (O2 : forall ev', In ev' evs ->
      (dst2, i_dst2 ev) <> (dst1, i_dst1 ev') /\ (dst2, i_dst2 ev) <> (dst2, i_dst2 ev')).
    { intros ev' Hin'. split; [congruence|].
      intros E. apply F2. inversion E as [E']. rewrite E'.
      apply list_elem_of_In, in_map, Hin'. }
    rewrite !(transformed_all_peek_other evs dst1) by exact O1.
    rewrite !(transformed_all_peek_other evs dst2) by exact O2.
    destruct (transformed_dst1 m_e self dst1 dst2 src ev w H1) as (A1 & A2 & A3 & A4);
      [congruence|].
    destruct (transformed_dst2 m_e self dst1 dst2 src ev w H2) as (B1 & B2 & B3 & B4).
    repeat apply conj; assumption.
  - destruct (IH (step ev0 w) N12 N1s N2s
                (slots_allocated_transformed w evs ev0 H) ND1 ND2 ev Hin) as [e He].
    exists e. cbv zeta in He.
    rewrite (sampled_ext (set_engine (step ev0 w) e) (set_engine w e)) in He;
      [exact He| |reflexivity].
    intros comp. rewrite !peek_set_engine.
    apply transformed_peek_other; congruence.
Qed.

End SequenceFacts.

(** ** Claims on the pair-generation functors *)

Section FunctorClaims.

Context {Engine : Type}.
Implicit Types (w : World Engine).

Lemma filter_run (self : PairGenerationFilterFunc.t) (ptd i : nat) w
  (opt_depth : Q) :
  peek_runtime w ptd (PairGenerationFilterFunc.m_opt_depth_runtime_comp self) i
    = Some opt_depth ->
  PairGenerationFilterFunc.operator_call self ptd i w
    = Some (if Qlt_le_dec opt_depth 0 then true else false, w).
Proof.
  intros H.
  unfold PairGenerationFilterFunc.operator_call, mbind', read_runtime_rdata, ret.
  rewrite H. reflexivity.
Qed.

(** C3.  On a particle whose optical-depth attribute exists, the filter
    returns [true] exactly when the optical depth is strictly negative,
    [false] when it is zero and when it is positive, and it hands back the
    store it was given: no attribute is changed and no write is logged. *)
Theorem filter_true_iff_depth_negative
  (self : PairGenerationFilterFunc.t) (ptd i : nat) w (opt_depth : Q) :
  peek_runtime w ptd (PairGenerationFilterFunc.m_opt_depth_runtime_comp self) i
    = Some opt_depth ->
  exists b : bool,
    PairGenerationFilterFunc.operator_call self ptd i w = Some (b, w) /\
    (b = true <-> opt_depth < 0) /\
    (opt_depth == 0 -> b = false) /\
    (0 < opt_depth -> b = false).
Proof.
  intros H. rewrite (filter_run self ptd i w opt_depth H).
  eexists. split; [reflexivity|].
  destruct (Qlt_le_dec opt_depth 0) as [L|L].
  - repeat apply conj; intros; try reflexivity; try assumption; exfalso; lra.
  - repeat apply conj; intros; try reflexivity; try discriminate. exfalso; lra.
Qed.

(** C10.  A call of the transform on an existing photon and two existing
    destination slots succeeds and performs exactly nine writes: weight
    and the three momentum components of each destination slot, then the
    id of the photon.  Afterwards the photon keeps its real attributes
    (it is not one of the destination slots), its position and its cpu;
    no gathered-field attribute of any particle has changed; the real
    attributes of every particle other than the two destinations, the
    struct of every particle other than the photon, and all runtime
    attributes are unchanged; no tile has gained or lost a particle. *)
Theorem transform_frame (m_e : Q) (self : PairGenerationTransformFunc.t)
  (dst1 dst2 src : nat) (ev : Event) w :
  allocated w src (i_src ev) = true ->
  allocated w dst1 (i_dst1 ev) = true ->
  allocated w dst2 (i_dst2 ev) = true ->
  (src, i_src ev) <> (dst1, i_dst1 ev) ->
  (src, i_src ev) <> (dst2, i_dst2 ev) ->
  exists w',
    PairGenerationTransformFunc.operator_call m_e self dst1 dst2 src
      (i_src ev) (i_dst1 ev) (i_dst2 ev) w = Some (tt, w') /\
    trace w' = trace w ++
      [WroteReal dst1 PIdx.w (i_dst1 ev); WroteReal dst1 PIdx.ux (i_dst1 ev);
       WroteReal dst1 PIdx.uy (i_dst1 ev); WroteReal dst1 PIdx.uz (i_dst1 ev);
       WroteReal dst2 PIdx.w (i_dst2 ev); WroteReal dst2 PIdx.ux (i_dst2 ev);
       WroteReal dst2 PIdx.uy (i_dst2 ev); WroteReal dst2 PIdx.uz (i_dst2 ev);
       WroteId src (i_src ev)] /\
    (forall comp, peek w' src comp (i_src ev) = peek w src comp (i_src ev)) /\
    (exists p, peek_aos w src (i_src ev) = Some p /\
               peek_aos w' src (i_src ev)
                 = Some {| pos := pos p; id := (-1)%Z; cpu := cpu p |}) /\
    (forall t comp i, (4 <= comp)%nat -> peek w' t comp i = peek w t comp i) /\
    (forall t comp i,
       (t, i) <> (dst1, i_dst1 ev) -> (t, i) <> (dst2, i_dst2 ev) ->
       peek w' t comp i = peek w t comp i) /\
    (forall t i, (t, i) <> (src, i_src ev) -> peek_aos w' t i = peek_aos w t i) /\
    (forall t comp i, peek_runtime w' t comp i = peek_runtime w t comp i) /\
    (forall t, m_runtime_idata (tiles w' t) = m_runtime_idata (tiles w t)) /\
    (forall t, length (m_aos (tiles w' t)) = length (m_aos (tiles w t))).
Proof.
  intros Hs H1 H2 N1 N2.
  exists (transformed m_e self dst1 dst2 src ev w).
  split; [apply operator_call_run; assumption|].
  split; [apply transformed_trace|].
  split; [intros comp; apply transformed_peek_other; assumption|].
  split.
  { apply allocated_true in Hs as [[p Hp] _]. exists p. split; [exact Hp|].
    rewrite transformed_peek_aos_src, Hp. reflexivity. }
  split; [intros; apply transformed_peek_fields; assumption|].
  split; [intros; apply transformed_peek_other; assumption|].
  split; [intros; apply transformed_peek_aos_other; assumption|].
  split; [intros; apply transformed_peek_runtime|].
  split; [intros; apply transformed_runtime_idata|].
  intros; apply transformed_aos_length.
Qed.


(** C2.  The transform applied once to each of [N] events whose photons
    and destination slots exist, with pairwise distinct slots in each of
    the two destination tiles and three different tiles: the run succeeds;
    the writes are, event after event, the eight destination writes
    followed by the id write, so exactly the [N] slots of the events have
    their weight written in each destination; every event's two slots hold
    what the collaborator answered for its photon; if every answer of the
    collaborator has daughter weights summing to the photon weight, the
    destination weights sum to the source weights; every source id is -1;
    no other real attribute has changed and no tile has gained or lost a
    particle. *)
Theorem transform_all_creates_pairs (m_e : Q)
  (self : PairGenerationTransformFunc.t) (dst1 dst2 src : nat)
  (evs : list Event) w :
  dst1 <> dst2 -> dst1 <> src -> dst2 <> src ->
  slots_allocated dst1 dst2 src w evs = true ->
  NoDup (map i_dst1 evs) -> NoDup (map i_dst2 evs) ->
  exists w',
    transform_all m_e self dst1 dst2 src evs w = Some (tt, w') /\
    (exists new,
       trace w' = trace w ++ new /\
       new = flat_map (writes_of dst1 dst2 src) evs /\
       weight_writes dst1 new = map i_dst1 evs /\
       weight_writes dst2 new = map i_dst2 evs /\
       length (weight_writes dst1 new) = length evs /\
       length (weight_writes dst2 new) = length evs) /\
    (forall ev, In ev evs ->
       exists e : Engine,
         let out := fst (sampled m_e self src (set_engine w e) (i_src ev)) in
         peek w' dst1 PIdx.w (i_dst1 ev) = Some (e_w out) /\
         peek w' dst1 PIdx.ux (i_dst1 ev) = Some (e_px out * (1 / m_e)) /\
         peek w' dst1 PIdx.uy (i_dst1 ev) = Some (e_py out * (1 / m_e)) /\
         peek w' dst1 PIdx.uz (i_dst1 ev) = Some (e_pz out * (1 / m_e)) /\
         peek w' dst2 PIdx.w (i_dst2 ev) = Some (p_w out) /\
         peek w' dst2 PIdx.ux (i_dst2 ev) = Some (p_px out * (1 / m_e)) /\
         peek w' dst2 PIdx.uy (i_dst2 ev) = Some (p_py out * (1 / m_e)) /\
         peek w' dst2 PIdx.uz (i_dst2 ev) = Some (p_pz out * (1 / m_e))) /\
    ((forall (e : Engine) (p E B : Q * Q * Q) (wt : Q),
        let out := fst (PairGenerationTransformFunc.m_generate_functor self
                          e p E B wt) in
        e_w out + p_w out == wt) ->
     Qsum (map (fun ev => weight_at w' dst1 (i_dst1 ev)) evs)
     + Qsum (map (fun ev => weight_at w' dst2 (i_dst2 ev)) evs)
     == Qsum (map (fun ev => weight_at w src (i_src ev)) evs)) /\
    (forall ev, In ev evs ->
       exists p, peek_aos w' src (i_src ev) = Some p /\
                 id p = (-1)%Z /\ (id p < 0)%Z) /\
    (forall t comp i,
       (forall ev, In ev evs ->
          (t, i) <> (dst1, i_dst1 ev) /\ (t, i) <> (dst2, i_dst2 ev)) ->
       peek w' t comp i = peek w t comp i) /\
    (forall t, length (m_aos (tiles w' t)) = length (m_aos (tiles w t))).
Proof.
  intros N12 N1s N2s Ha ND1 ND2.
  exists (transformed_all m_e self dst1 dst2 src evs w).
  split; [apply transform_all_run, Ha|].
  split.
  { exists (flat_map (writes_of dst1 dst2 src) evs).
    destruct (weight_writes_flat dst1 dst2 src evs N12) as [W1 W2].
    rewrite W1, W2, !length_map.
    repeat apply conj; try reflexivity. apply transformed_all_trace. }
  split; [apply transformed_all_daughters; assumption|].
  split.
  { intros Hc. apply Qsum_pointwise. intros ev Hin.
    destruct (transformed_all_daughters m_e self dst1 dst2 src evs w
                N12 N1s N2s Ha ND1 ND2 ev Hin) as (e & D).
    cbv zeta in D. destruct D as (D1 & _ & _ & _ & D2 & _).
    unfold weight_at. rewrite D1, D2. cbn [from_option Datatypes.id].
    exact (Hc _ _ _ _ _). }
  split.
  { intros ev Hin.
    destruct (transformed_all_ids m_e self dst1 dst2 src evs w ev Ha Hin)
      as (p & Hp & Hid).
    exists p. rewrite Hid. split; [exact Hp|]. split; [reflexivity|]. lia. }
  split; [intros; apply transformed_all_peek_other; assumption|].
  intros; apply transformed_all_aos_length.
Qed.

End FunctorClaims.

(** ** The functor claims on a concrete store *)

Lemma filter_true_iff_depth_negative_witness :
  peek_runtime (example_world 1) 2 0 0 = Some (-1) /\
  exists b : bool,
    PairGenerationFilterFunc.operator_call (PairGenerationFilterFunc.mk 0) 2 0
      (example_world 1) = Some (b, example_world 1) /\
    (b = true <-> -1 < 0) /\ (-1 == 0 -> b = false) /\ (0 < -1 -> b = false).
Proof.
  split; [reflexivity|].
  apply (filter_true_iff_depth_negative (PairGenerationFilterFunc.mk 0) 2 0
           (example_world 1) (-1)).
  reflexivity.
Defined.

Lemma transform_frame_witness :
  (allocated (example_world 1) 2 0 = true /\
   allocated (example_world 1) 0 0 = true /\
   allocated (example_world 1) 1 0 = true) /\
  exists w',
    PairGenerationTransformFunc.operator_call electron_mass
      (PairGenerationTransformFunc.mk splitting_double) 0 1 2 0 0 0
      (example_world 1) = Some (tt, w') /\
    length (trace w') = 9%nat /\
    peek w' 2 PIdx.w 0 = Some 1 /\
    peek w' 2 PIdx.By 0 = Some 5.
Proof.
  split; [repeat split|].
  destruct (transform_frame electron_mass
              (PairGenerationTransformFunc.mk splitting_double) 0 1 2
              (mkEvent 0 0 0) (example_world 1) eq_refl eq_refl eq_refl
              ltac:(discriminate) ltac:(discriminate))
    as (w' & Hrun & Htr & Hsrc & _).
  exists w'. split; [exact Hrun|]. split; [rewrite Htr; reflexivity|].
  split; [rewrite Hsrc; reflexivity|]. rewrite Hsrc. reflexivity.
Defined.



Lemma transform_all_creates_pairs_witness :
  (slots_allocated 0 1 2 (example_world 2) [mkEvent 0 0 0; mkEvent 1 1 1] = true /\
   NoDup (map i_dst1 [mkEvent 0 0 0; mkEvent 1 1 1]) /\
   NoDup (map i_dst2 [mkEvent 0 0 0; mkEvent 1 1 1])) /\
  exists w',
    transform_all electron_mass (PairGenerationTransformFunc.mk splitting_double)
      0 1 2 [mkEvent 0 0 0; mkEvent 1 1 1] (example_world 2) = Some (tt, w') /\
    weight_writes 0 (trace w') = [0; 1]%nat /\
    weight_writes 1 (trace w') = [0; 1]%nat /\
    weight_at w' 0 0 + weight_at w' 0 1 + (weight_at w' 1 0 + weight_at w' 1 1)
      == 1 + 3.
Proof.
  assert (ND : NoDup [0; 1]%nat) by (apply (bool_decide_unpack _); reflexivity).
  split; [repeat split; assumption|].
  destruct (transform_all_creates_pairs electron_mass
              (PairGenerationTransformFunc.mk splitting_double) 0 1 2
              [mkEvent 0 0 0; mkEvent 1 1 1] (example_world 2)
              ltac:(discriminate) ltac:(discriminate) ltac:(discriminate)
              eq_refl ND ND)
    as (w' & Hrun & (new & Htr & _ & W1 & W2 & _) & _ & Hsum & _).
  exists w'. split; [exact Hrun|].
  rewrite Htr. cbn [example_world trace app].
  split; [exact W1|]. split; [exact W2|].
  assert (Hc : forall (e : nat) (p E B : Q * Q * Q) (wt : Q),
            let out := fst (PairGenerationTransformFunc.m_generate_functor
                              (PairGenerationTransformFunc.mk splitting_double)
                              e p E B wt) in
            e_w out + p_w out == wt).
  { intros e [[px py] pz] E B wt. cbn. field. }
  specialize (Hsum Hc). cbn [map Qsum fold_right i_dst1 i_dst2 i_src] in Hsum.
  rewrite !Qplus_0_r in Hsum. rewrite Hsum. reflexivity.
Defined.

(** * Further properties *)

(** ** The derivative operators as linear, local, shift-invariant maps *)

Ltac unfold_stencils :=
  unfold UpwardDx, DownwardDx, UpwardDy, DownwardDy, UpwardDz, DownwardDz.

(** The six operators are linear in the field, for every coefficient
    vector and both builds. *)
Theorem derivative_linear_in_field (dim : WARPX_DIM) (a b : Q) (F G : Array4)
  (coefs : list Q) (n i j k : Z) :
  let H : Array4 := fun i j k => a * F i j k + b * G i j k in
  UpwardDx dim H coefs n i j k
    == a * UpwardDx dim F coefs n i j k + b * UpwardDx dim G coefs n i j k /\
  DownwardDx dim H coefs n i j k
    == a * DownwardDx dim F coefs n i j k + b * DownwardDx dim G coefs n i j k /\
  UpwardDy dim H coefs n i j k
    == a * UpwardDy dim F coefs n i j k + b * UpwardDy dim G coefs n i j k /\
  DownwardDy dim H coefs n i j k
    == a * DownwardDy dim F coefs n i j k + b * DownwardDy dim G coefs n i j k /\
  UpwardDz dim H coefs n i j k
    == a * UpwardDz dim F coefs n i j k + b * UpwardDz dim G coefs n i j k /\
  DownwardDz dim H coefs n i j k
    == a * DownwardDz dim F coefs n i j k + b * DownwardDz dim G coefs n i j k.
Proof.
  cbv zeta. unfold_stencils. destruct dim; repeat apply conj; ring.
Qed.

(** A field that does not vary along an axis has zero upward and downward
    derivative along that axis, whatever the coefficients (z is the second
    index in the XZ build). *)
Theorem derivative_across_invariant_axis (dim : WARPX_DIM) (G : Z -> Z -> Q)
  (coefs : list Q) (n i j k : Z) :
  UpwardDx dim (fun _ j k => G j k) coefs n i j k == 0 /\
  DownwardDx dim (fun _ j k => G j k) coefs n i j k == 0 /\
  UpwardDy dim (fun i _ k => G i k) coefs n i j k == 0 /\
  DownwardDy dim (fun i _ k => G i k) coefs n i j k == 0 /\
  UpwardDz dim (match dim with
                | WARPX_DIM_3D => fun i j _ => G i j
                | WARPX_DIM_XZ => fun i _ k => G i k
                end) coefs n i j k == 0 /\
  DownwardDz dim (match dim with
                  | WARPX_DIM_3D => fun i j _ => G i j
                  | WARPX_DIM_XZ => fun i _ k => G i k
                  end) coefs n i j k == 0.
Proof.
  unfold_stencils. destruct dim; repeat apply conj; ring.
Qed.

(** The operators commute with translations of the grid: the derivative
    of a shifted field is the shifted derivative. *)
Theorem derivative_commutes_with_shift (dim : WARPX_DIM) (F : Array4)
  (coefs : list Q) (n i j k a b c : Z) :
  let S : Array4 := fun i j k => F (i + a)%Z (j + b)%Z (k + c)%Z in
  UpwardDx dim S coefs n i j k = UpwardDx dim F coefs n (i + a)%Z (j + b)%Z (k + c)%Z /\
  DownwardDx dim S coefs n i j k = DownwardDx dim F coefs n (i + a)%Z (j + b)%Z (k + c)%Z /\
  UpwardDy dim S coefs n i j k = UpwardDy dim F coefs n (i + a)%Z (j + b)%Z (k + c)%Z /\
  DownwardDy dim S coefs n i j k = DownwardDy dim F coefs n (i + a)%Z (j + b)%Z (k + c)%Z /\
  UpwardDz dim S coefs n i j k = UpwardDz dim F coefs n (i + a)%Z (j + b)%Z (k + c)%Z /\
  DownwardDz dim S coefs n i j k = DownwardDz dim F coefs n (i + a)%Z (j + b)%Z (k + c)%Z.
Proof.
  cbv zeta. unfold_stencils.
  destruct dim; repeat apply conj; try reflexivity;
    repeat (f_equal; try lia).
Qed.

(** The operators read the field only within one cell of the point where
    they are evaluated (and, in the XZ build, only in its own plane). *)
Theorem stencil_reads_one_cell_halo (dim : WARPX_DIM) (F G : Array4)
  (coefs : list Q) (n i j k : Z) :
  (forall a b c, halo dim i j k a b c -> F a b c = G a b c) ->
  UpwardDx dim F coefs n i j k = UpwardDx dim G coefs n i j k /\
  DownwardDx dim F coefs n i j k = DownwardDx dim G coefs n i j k /\
  UpwardDy dim F coefs n i j k = UpwardDy dim G coefs n i j k /\
  DownwardDy dim F coefs n i j k = DownwardDy dim G coefs n i j k /\
  UpwardDz dim F coefs n i j k = UpwardDz dim G coefs n i j k /\
  DownwardDz dim F coefs n i j k = DownwardDz dim G coefs n i j k.
Proof.
  intros H.
  unfold UpwardDx, DownwardDx, UpwardDy, DownwardDy, UpwardDz, DownwardDz.
  cbv zeta.
  destruct dim; repeat apply conj; try reflexivity;
    rewrite !H by (unfold halo; repeat split; lia); reflexivity.
Qed.

(** ** The builder: exactness, shape, bounds and scaling *)

(** With the coefficients built for positive spacings, both operators of
    an axis return exactly the slope along that axis of any affine field,
    whatever its slopes along the other axes. *)
Theorem derivative_exact_on_affine_fields (dx dy dz : Q) (sx sy sz : list Q)
  (a b c e : Q) :
  0 < dx -> 0 < dy -> 0 < dz ->
  (exists cx cy cz,
     InitializeStencilCoefficients WARPX_DIM_3D (dx, dy, dz) sx sy sz
       = Some (cx, cy, cz) /\
     forall (n i j k : Z),
       let F := affine_field a b c e dx dy dz in
       UpwardDx WARPX_DIM_3D F cx n i j k == a /\
       DownwardDx WARPX_DIM_3D F cx n i j k == a /\
       UpwardDy WARPX_DIM_3D F cy n i j k == b /\
       DownwardDy WARPX_DIM_3D F cy n i j k == b /\
       UpwardDz WARPX_DIM_3D F cz n i j k == c /\
       DownwardDz WARPX_DIM_3D F cz n i j k == c) /\
  (exists cx cy cz,
     InitializeStencilCoefficients WARPX_DIM_XZ (dx, dy, dz) sx sy sz
       = Some (cx, cy, cz) /\
     forall (n i j k : Z),
       let F := affine_field a c 0 e dx dz 1 in
       UpwardDx WARPX_DIM_XZ F cx n i j k == a /\
       DownwardDx WARPX_DIM_XZ F cx n i j k == a /\
       UpwardDz WARPX_DIM_XZ F cz n i j k == c /\
       DownwardDz WARPX_DIM_XZ F cz n i j k == c).
Proof.
  intros Hx Hy Hz.
  assert (Nx : ~ dx == 0) by (apply Qpos_nonzero, Hx).
  assert (Ny : ~ dy == 0) by (apply Qpos_nonzero, Hy).
  assert (Nz : ~ dz == 0) by (apply Qpos_nonzero, Hz).
  split.
  - destruct (Init3D_shape dx dy dz sx sy sz Hx Hy Hz)
      as (rx & ry & rz & beta & gx & gy & gz & x5 & y5 & z5 & E).
    eexists _, _, _. split; [exact E|].
    intros n i j k. cbv zeta. unfold_stencils. unfold affine_field, coef. cbn [nth].
    repeat first [rewrite inject_Z_succ | rewrite inject_Z_pred].
    repeat apply conj; field; assumption.
  - destruct (InitXZ_shape dx dy dz sx sy sz Hx Hy Hz)
      as (rx & rz & x5 & y5 & z5 & E).
    eexists _, _, _. split; [exact E|].
    intros n i j k. cbv zeta. unfold_stencils. unfold affine_field, coef. cbn [nth].
    repeat first [rewrite inject_Z_succ | rewrite inject_Z_pred].
    repeat apply conj; field; assumption.
Qed.

Ltac step_div :=
  match goal with
  | H : context [Checked.bind (Checked.div ?a ?b) _] |- _ =>
      destruct (Checked.div a b) as [?q|]; cbn [Checked.bind] in *;
      [|discriminate H]
  end.

(** Whenever the builder returns, each vector has exactly six entries,
    the first five do not depend on what the vectors held before, and
    building again into the returned vectors returns them unchanged. *)
Theorem builder_output_shape (dim : WARPX_DIM) (cell_size : Q * Q * Q)
  (sx sy sz cx cy cz : list Q) :
  InitializeStencilCoefficients dim cell_size sx sy sz = Some (cx, cy, cz) ->
  (length cx = 6 /\ length cy = 6 /\ length cz = 6)%nat /\
  (forall sx' sy' sz' : list Q,
     exists cx' cy' cz',
       InitializeStencilCoefficients dim cell_size sx' sy' sz'
         = Some (cx', cy', cz') /\
       take 5 cx' = take 5 cx /\ take 5 cy' = take 5 cy /\
       take 5 cz' = take 5 cz) /\
  InitializeStencilCoefficients dim cell_size cx cy cz = Some (cx, cy, cz).
Proof.
  intros H. destruct cell_size as [[c0 c1] c2].
  unfold InitializeStencilCoefficients in *.
  destruct dim; repeat step_div;
    destruct (resize6 sx) as (x0 & x1 & x2 & x3 & x4 & x5 & Ex);
    destruct (resize6 sy) as (y0 & y1 & y2 & y3 & y4 & y5 & Ey);
    destruct (resize6 sz) as (z0 & z1 & z2 & z3 & z4 & z5 & Ez);
    rewrite Ex, Ey, Ez in H; cbn [store insert list_insert] in H;
    injection H as <- <- <-;
    (split; [repeat split|]);
    (split; [|reflexivity]);
    intros sx' sy' sz';
    destruct (resize6 sx') as (? & ? & ? & ? & ? & ? & ->);
    destruct (resize6 sy') as (? & ? & ? & ? & ? & ? & ->);
    destruct (resize6 sz') as (? & ? & ? & ? & ? & ? & ->);
    eexists _, _, _; (split; [reflexivity|]); repeat split.
Qed.

Lemma std_max_ge (a b : Q) : a <= std_max a b /\ b <= std_max a b.
Proof. unfold std_max. destruct (Qlt_le_dec a b); split; lra. Qed.

Lemma std_max3_ge (a b c : Q) :
  a <= std_max3 a b c /\ b <= std_max3 a b c /\ c <= std_max3 a b c.
Proof.
  unfold std_max3.
  destruct (std_max_ge a b) as [H1 H2].
  destruct (std_max_ge (std_max a b) c) as [H3 H4].
  repeat split; lra.
Qed.

Lemma ratio_bounds (a d : Q) :
  0 < a -> a <= d -> 0 < (a / d) * (a / d) /\ (a / d) * (a / d) <= 1.
Proof.
  intros Ha Hd. assert (Hpos : 0 < d) by lra.
  assert (Hq : 0 < a / d) by (apply Qpos_div; assumption).
  assert (Hq1 : a / d <= 1).
  { apply Qle_shift_div_r; [exact Hpos|]. lra. }
  split; nra.
Qed.

Lemma gamma_factor_bounds (p den : Q) :
  0 < p -> p <= 1 -> p < den ->
  - (1 # 16) < p * (0.0625 - 0.125 * p * (1 / den)) /\
  p * (0.0625 - 0.125 * p * (1 / den)) < 1 # 16.
Proof.
  intros P0 P1 Pd. assert (Hden : 0 < den) by lra.
  set (s := p * (1 / den)).
  assert (Hs0 : 0 < s).
  { unfold s. apply Qmult_lt_0_compat; [exact P0|].
    apply Qpos_div; [reflexivity|exact Hden]. }
  assert (Hs1 : s < 1).
  { unfold s.
    assert (E : p * (1 / den) == p / den) by (field; lra).
    rewrite E. apply Qlt_shift_div_r; [exact Hden|]. lra. }
  assert (Eg : p * (0.0625 - 0.125 * p * (1 / den))
               == p * ((1 # 16) - (1 # 8) * s)) by (unfold s; ring).
  rewrite Eg. clearbody s. split; nra.
Qed.

Lemma ckc_factor_bounds (rx ry rz : Q) :
  0 < rx -> rx <= 1 -> 0 < ry -> ry <= 1 -> 0 < rz -> rz <= 1 ->
  let beta := 0.125 * (1 - rx * ry * rz / (ry * rz + rz * rx + rx * ry)) in
  let inv_r_fac := 1 / (ry * rz + rz * rx + rx * ry) in
  let gammax := ry * rz * (0.0625 - 0.125 * ry * rz * inv_r_fac) in
  let gammay := rx * rz * (0.0625 - 0.125 * rx * rz * inv_r_fac) in
  let gammaz := rx * ry * (0.0625 - 0.125 * rx * ry * inv_r_fac) in
  (1 # 12 <= beta /\ beta < 1 # 8) /\
  (- (1 # 16) < gammax /\ gammax < 1 # 16) /\
  (- (1 # 16) < gammay /\ gammay < 1 # 16) /\
  (- (1 # 16) < gammaz /\ gammaz < 1 # 16) /\
  (1 # 4 < 1 - 2 * ry * beta - 2 * rz * beta - 4 * gammax /\
   1 - 2 * ry * beta - 2 * rz * beta - 4 * gammax < 5 # 4) /\
  (1 # 4 < 1 - 2 * rx * beta - 2 * rz * beta - 4 * gammay /\
   1 - 2 * rx * beta - 2 * rz * beta - 4 * gammay < 5 # 4) /\
  (1 # 4 < 1 - 2 * rx * beta - 2 * ry * beta - 4 * gammaz /\
   1 - 2 * rx * beta - 2 * ry * beta - 4 * gammaz < 5 # 4).
Proof.
  intros X0 X1 Y0 Y1 Z0 Z1. cbv zeta.
  set (den := ry * rz + rz * rx + rx * ry).
  assert (Pyz : 0 < ry * rz) by nra.
  assert (Pzx : 0 < rz * rx) by nra.
  assert (Pxy : 0 < rx * ry) by nra.
  assert (Pyz1 : ry * rz <= 1) by nra.
  assert (Pzx1 : rz * rx <= 1) by nra.
  assert (Pxy1 : rx * ry <= 1) by nra.
  assert (Hden : 0 < den) by (unfold den; lra).
  assert (Hxyz : 0 < rx * ry * rz) by nra.
  assert (H3 : 3 * (rx * ry * rz) <= den) by (unfold den; nra).
  set (t := rx * ry * rz / den).
  assert (Ht0 : 0 < t) by (apply Qpos_div; assumption).
  assert (Ht1 : t <= 1 # 3).
  { unfold t. apply Qle_shift_div_r; [exact Hden|]. lra. }
  destruct (gamma_factor_bounds (ry * rz) den Pyz Pyz1 ltac:(unfold den; lra))
    as [Gx0 Gx1].
  assert (Pxz : 0 < rx * rz) by nra.
  assert (Pxz1 : rx * rz <= 1) by nra.
  destruct (gamma_factor_bounds (rx * rz) den Pxz Pxz1 ltac:(unfold den; nra))
    as [Gy0 Gy1].
  destruct (gamma_factor_bounds (rx * ry) den Pxy Pxy1 ltac:(unfold den; lra))
    as [Gz0 Gz1].
  rewrite !Qmult_assoc in Gx0, Gx1, Gy0, Gy1, Gz0, Gz1.
  set (gx := ry * rz * (0.0625 - 0.125 * ry * rz * (1 / den))) in *.
  set (gy := rx * rz * (0.0625 - 0.125 * rx * rz * (1 / den))) in *.
  set (gz := rx * ry * (0.0625 - 0.125 * rx * ry * (1 / den))) in *.
  clearbody gx gy gz t.
  assert (B0 : 1 # 12 <= 0.125 * (1 - t)) by lra.
  assert (B1 : 0.125 * (1 - t) < 1 # 8) by lra.
  set (beta := 0.125 * (1 - t)) in *. clearbody beta.
  repeat split; try assumption; nra.
Qed.

Lemma coefficient_bounds_3D (dx dy dz : Q) (sx sy sz : list Q) :
  0 < dx -> 0 < dy -> 0 < dz ->
  exists cx cy cz,
    InitializeStencilCoefficients WARPX_DIM_3D (dx, dy, dz) sx sy sz
      = Some (cx, cy, cz) /\
    Forall2 (fun c d =>
      coef c 0 == 1 / d /\
      (1 # 4) * (1 / d) < coef c 1 /\ coef c 1 < (5 # 4) * (1 / d) /\
      0 < coef c 2 /\ coef c 2 < (1 # 8) * (1 / d) /\
      0 < coef c 3 /\ coef c 3 < (1 # 8) * (1 / d) /\
      - (1 # 16) * (1 / d) < coef c 4 /\ coef c 4 < (1 # 16) * (1 / d))
      [cx; cy; cz] [dx; dy; dz].
Proof.
  intros Hx Hy Hz.
  destruct (Init3D_closed dx dy dz sx sy sz Hx Hy Hz) as (x5 & y5 & z5 & E).
  cbv zeta in E.
  eexists _, _, _. split; [exact E|]. clear E.
  assert (Hix : 0 < 1 / dx) by (apply Qpos_div; [reflexivity|assumption]).
  assert (Hiy : 0 < 1 / dy) by (apply Qpos_div; [reflexivity|assumption]).
  assert (Hiz : 0 < 1 / dz) by (apply Qpos_div; [reflexivity|assumption]).
  destruct (std_max3_ge (1 / dx) (1 / dy) (1 / dz)) as (Mx & My & Mz).
  set (delta := std_max3 (1 / dx) (1 / dy) (1 / dz)) in *.
  destruct (ratio_bounds (1 / dx) delta Hix Mx) as [X0 X1].
  destruct (ratio_bounds (1 / dy) delta Hiy My) as [Y0 Y1].
  destruct (ratio_bounds (1 / dz) delta Hiz Mz) as [Z0 Z1].
  set (rx := 1 / dx / delta * (1 / dx / delta)) in *.
  set (ry := 1 / dy / delta * (1 / dy / delta)) in *.
  set (rz := 1 / dz / delta * (1 / dz / delta)) in *.
  destruct (ckc_factor_bounds rx ry rz X0 X1 Y0 Y1 Z0 Z1)
    as ((B0 & B1) & (Gx0 & Gx1) & (Gy0 & Gy1) & (Gz0 & Gz1)
        & (Ax0 & Ax1) & (Ay0 & Ay1) & (Az0 & Az1)).
  cbv zeta in *.
  apply Forall2_cons; [|apply Forall2_cons; [|apply Forall2_cons; [|apply Forall2_nil]]];
    unfold coef; cbn [nth]; (split; [reflexivity|]);
    set (beta := 0.125 * (1 - rx * ry * rz / (ry * rz + rz * rx + rx * ry))) in *;
    set (gx := ry * rz * (0.0625 - 0.125 * ry * rz * (1 / (ry * rz + rz * rx + rx * ry)))) in *;
    set (gy := rx * rz * (0.0625 - 0.125 * rx * rz * (1 / (ry * rz + rz * rx + rx * ry)))) in *;
    set (gz := rx * ry * (0.0625 - 0.125 * rx * ry * (1 / (ry * rz + rz * rx + rx * ry)))) in *;
    set (ax := 1 - 2 * ry * beta - 2 * rz * beta - 4 * gx) in *;
    set (ay := 1 - 2 * rx * beta - 2 * rz * beta - 4 * gy) in *;
    set (az := 1 - 2 * rx * beta - 2 * ry * beta - 4 * gz) in *;
    clearbody ax ay az gx gy gz beta;
    assert (Px : 0 < rx * beta /\ rx * beta < 1 # 8) by (split; nra);
    assert (Py : 0 < ry * beta /\ ry * beta < 1 # 8) by (split; nra);
    assert (Pz : 0 < rz * beta /\ rz * beta < 1 # 8) by (split; nra);
    destruct Px as [Px0 Px1]; destruct Py as [Py0 Py1]; destruct Pz as [Pz0 Pz1];
    set (px := rx * beta) in *; set (py := ry * beta) in *;
    set (pz := rz * beta) in *;
    clearbody px py pz rx ry rz delta;
    set (ix := 1 / dx) in *; set (iy := 1 / dy) in *; set (iz := 1 / dz) in *;
    clearbody ix iy iz;
    repeat apply conj; nra.
Qed.

Lemma std_max_scale (c a b a' b' : Q) :
  0 < c -> a' == c * a -> b' == c * b -> std_max a' b' == c * std_max a b.
Proof.
  intros Hc Ha Hb. unfold std_max.
  destruct (Qlt_le_dec a' b'), (Qlt_le_dec a b); try assumption; exfalso; nra.
Qed.

Lemma std_max3_scale (c a b d a' b' d' : Q) :
  0 < c -> a' == c * a -> b' == c * b -> d' == c * d ->
  std_max3 a' b' d' == c * std_max3 a b d.
Proof.
  intros Hc Ha Hb Hd. unfold std_max3.
  apply std_max_scale; [exact Hc| |exact Hd].
  apply std_max_scale; assumption.
Qed.

Lemma inv_scale (l d : Q) : 0 < l -> 0 < d -> 1 / (l * d) == (1 / l) * (1 / d).
Proof. intros. field. split; lra. Qed.

Ltac scaled_coef l d :=
  match goal with
  | |- ?f * (1 / (l * d)) == ?g * (1 / d) / l =>
      generalize f; intros; field; split; lra
  | |- 1 / (l * d) == 1 / d / l => field; split; lra
  end.

Lemma InitXZ_closed (dx dy dz : Q) (sx sy sz : list Q) :
  0 < dx -> 0 < dy -> 0 < dz ->
  let inv_dx := 1 / dx in
  let inv_dy := 1 / dy in
  let inv_dz := 1 / dz in
  let delta := std_max inv_dx inv_dz in
  let rx := (inv_dx / delta) * (inv_dx / delta) in
  let rz := (inv_dz / delta) * (inv_dz / delta) in
  exists x5 y5 z5,
    InitializeStencilCoefficients WARPX_DIM_XZ (dx, dy, dz) sx sy sz =
    Some ([inv_dx; (1 - 2 * rz * 0.125) * inv_dx; 0;
           0.125 * rz * inv_dx; 0 * inv_dx; x5],
          [inv_dy; 0; 0; 0; 0 * inv_dy; y5],
          [inv_dz; (1 - 2 * rx * 0.125) * inv_dz;
           0.125 * rx * inv_dz; 0; 0 * inv_dz; z5]).
Proof.
  intros Hx Hy Hz. cbv zeta.
  assert (Hix : 0 < 1 / dx) by auto with qpos.
  assert (Hiy : 0 < 1 / dy) by auto with qpos.
  assert (Hiz : 0 < 1 / dz) by auto with qpos.
  assert (Hd : 0 < std_max (1 / dx) (1 / dz)) by auto with qpos.
  run_builder.
  destruct (resize6 sx) as (x0 & x1 & x2 & x3 & x4 & x5 & ->).
  destruct (resize6 sy) as (y0 & y1 & y2 & y3 & y4 & y5 & ->).
  destruct (resize6 sz) as (z0 & z1 & z2 & z3 & z4 & z5 & ->).
  cbn [store insert list_insert].
  exists x5, y5, z5. reflexivity.
Qed.

Lemma operators_scale (dim : WARPX_DIM) (l : Q) (c' c : list Q) :
  ~ l == 0 ->
  (forall n, (n < 5)%nat -> coef c' n == coef c n / l) ->
  forall (F : Array4) (m i j k : Z),
    UpwardDx dim F c' m i j k == UpwardDx dim F c m i j k / l /\
    DownwardDx dim F c' m i j k == DownwardDx dim F c m i j k / l /\
    UpwardDy dim F c' m i j k == UpwardDy dim F c m i j k / l /\
    DownwardDy dim F c' m i j k == DownwardDy dim F c m i j k / l /\
    UpwardDz dim F c' m i j k == UpwardDz dim F c m i j k / l /\
    DownwardDz dim F c' m i j k == DownwardDz dim F c m i j k / l.
Proof.
  intros Hl H F m i j k.
  pose proof (H 0%nat ltac:(lia)) as H0. pose proof (H 1%nat ltac:(lia)) as H1.
  pose proof (H 2%nat ltac:(lia)) as H2. pose proof (H 3%nat ltac:(lia)) as H3.
  pose proof (H 4%nat ltac:(lia)) as H4.
  unfold UpwardDx, DownwardDx, UpwardDy, DownwardDy, UpwardDz, DownwardDz.
  cbv zeta.
  destruct dim; repeat apply conj; rewrite ?H0, ?H1, ?H2, ?H3, ?H4;
    field; exact Hl.
Qed.

(** Changing the unit of length: multiplying the three spacings by
    [l > 0] divides every stored coefficient, and with it every
    derivative, by [l]. *)
Theorem coefficients_scale_with_spacing (dim : WARPX_DIM) (l dx dy dz : Q)
  (sx sy sz : list Q) :
  0 < l -> 0 < dx -> 0 < dy -> 0 < dz ->
  exists cx cy cz cx' cy' cz',
    InitializeStencilCoefficients dim (dx, dy, dz) sx sy sz
      = Some (cx, cy, cz) /\
    InitializeStencilCoefficients dim (l * dx, l * dy, l * dz) sx sy sz
      = Some (cx', cy', cz') /\
    Forall2 (fun c' c => forall n, (n < 5)%nat -> coef c' n == coef c n / l)
      [cx'; cy'; cz'] [cx; cy; cz] /\
    forall (F : Array4) (m i j k : Z),
      UpwardDx dim F cx' m i j k == UpwardDx dim F cx m i j k / l /\
      DownwardDx dim F cx' m i j k == DownwardDx dim F cx m i j k / l /\
      UpwardDy dim F cy' m i j k == UpwardDy dim F cy m i j k / l /\
      DownwardDy dim F cy' m i j k == DownwardDy dim F cy m i j k / l /\
      UpwardDz dim F cz' m i j k == UpwardDz dim F cz m i j k / l /\
      DownwardDz dim F cz' m i j k == DownwardDz dim F cz m i j k / l.
Proof.
  intros Hl Hx Hy Hz.
  assert (Hlx : 0 < l * dx) by nra.
  assert (Hly : 0 < l * dy) by nra.
  assert (Hlz : 0 < l * dz) by nra.
  assert (Hil : 0 < 1 / l) by (apply Qpos_div; [reflexivity|assumption]).
  assert (Nl : ~ l == 0) by (apply Qpos_nonzero, Hl).
  assert (K : exists cx cy cz cx' cy' cz',
    InitializeStencilCoefficients dim (dx, dy, dz) sx sy sz
      = Some (cx, cy, cz) /\
    InitializeStencilCoefficients dim (l * dx, l * dy, l * dz) sx sy sz
      = Some (cx', cy', cz') /\
    Forall2 (fun c' c => forall n, (n < 5)%nat -> coef c' n == coef c n / l)
      [cx'; cy'; cz'] [cx; cy; cz]).
  { destruct dim.
    - destruct (Init3D_closed dx dy dz sx sy sz Hx Hy Hz) as (x5 & y5 & z5 & E).
      destruct (Init3D_closed (l * dx) (l * dy) (l * dz) sx sy sz Hlx Hly Hlz)
        as (x5' & y5' & z5' & E').
      cbv zeta in E, E'.
      eexists _, _, _, _, _, _. split; [exact E|]. split; [exact E'|]. clear E E'.
      assert (Hd : std_max3 (1 / (l * dx)) (1 / (l * dy)) (1 / (l * dz))
                   == (1 / l) * std_max3 (1 / dx) (1 / dy) (1 / dz)).
      { apply std_max3_scale; [exact Hil|..]; apply inv_scale; assumption. }
      assert (Hdp : 0 < std_max3 (1 / dx) (1 / dy) (1 / dz)) by auto 10 with qpos.
      set (delta := std_max3 (1 / dx) (1 / dy) (1 / dz)) in *.
      set (delta' := std_max3 (1 / (l * dx)) (1 / (l * dy)) (1 / (l * dz))) in *.
      assert (Rx : 1 / (l * dx) / delta' * (1 / (l * dx) / delta')
                   == 1 / dx / delta * (1 / dx / delta))
        by (rewrite Hd; field; repeat split; lra).
      assert (Ry : 1 / (l * dy) / delta' * (1 / (l * dy) / delta')
                   == 1 / dy / delta * (1 / dy / delta))
        by (rewrite Hd; field; repeat split; lra).
      assert (Rz : 1 / (l * dz) / delta' * (1 / (l * dz) / delta')
                   == 1 / dz / delta * (1 / dz / delta))
        by (rewrite Hd; field; repeat split; lra).
      set (rx := 1 / dx / delta * (1 / dx / delta)) in *.
      set (ry := 1 / dy / delta * (1 / dy / delta)) in *.
      set (rz := 1 / dz / delta * (1 / dz / delta)) in *.
      set (rx' := 1 / (l * dx) / delta' * (1 / (l * dx) / delta')) in *.
      set (ry' := 1 / (l * dy) / delta' * (1 / (l * dy) / delta')) in *.
      set (rz' := 1 / (l * dz) / delta' * (1 / (l * dz) / delta')) in *.
      clearbody rx ry rz rx' ry' rz' delta delta'.
      apply Forall2_cons; [|apply Forall2_cons; [|apply Forall2_cons; [|apply Forall2_nil]]];
        intros n Hn; unfold coef;
        (destruct n as [|[|[|[|[|n]]]]]; [..|lia]); cbn [nth];
        rewrite ?Rx, ?Ry, ?Rz.
      all: first [scaled_coef l dx | scaled_coef l dy | scaled_coef l dz].
    - destruct (InitXZ_closed dx dy dz sx sy sz Hx Hy Hz) as (x5 & y5 & z5 & E).
      destruct (InitXZ_closed (l * dx) (l * dy) (l * dz) sx sy sz Hlx Hly Hlz)
        as (x5' & y5' & z5' & E').
      cbv zeta in E, E'.
      eexists _, _, _, _, _, _. split; [exact E|]. split; [exact E'|]. clear E E'.
      assert (Hd : std_max (1 / (l * dx)) (1 / (l * dz))
                   == (1 / l) * std_max (1 / dx) (1 / dz)).
      { apply std_max_scale; [exact Hil|..]; apply inv_scale; assumption. }
      assert (Hdp : 0 < std_max (1 / dx) (1 / dz)) by auto 10 with qpos.
      set (delta := std_max (1 / dx) (1 / dz)) in *.
      set (delta' := std_max (1 / (l * dx)) (1 / (l * dz))) in *.
      assert (Rx : 1 / (l * dx) / delta' * (1 / (l * dx) / delta')
                   == 1 / dx / delta * (1 / dx / delta))
        by (rewrite Hd; field; repeat split; lra).
      assert (Rz : 1 / (l * dz) / delta' * (1 / (l * dz) / delta')
                   == 1 / dz / delta * (1 / dz / delta))
        by (rewrite Hd; field; repeat split; lra).
      set (rx := 1 / dx / delta * (1 / dx / delta)) in *.
      set (rz := 1 / dz / delta * (1 / dz / delta)) in *.
      set (rx' := 1 / (l * dx) / delta' * (1 / (l * dx) / delta')) in *.
      set (rz' := 1 / (l * dz) / delta' * (1 / (l * dz) / delta')) in *.
      clearbody rx rz rx' rz' delta delta'.
      apply Forall2_cons; [|apply Forall2_cons; [|apply Forall2_cons; [|apply Forall2_nil]]];
        intros n Hn; unfold coef;
        (destruct n as [|[|[|[|[|n]]]]]; [..|lia]); cbn [nth];
        rewrite ?Rx, ?Rz.
      all: first [scaled_coef l dx | scaled_coef l dy | scaled_coef l dz
                 | field; repeat split; lra]. }
  destruct K as (cx & cy & cz & cx' & cy' & cz' & E & E' & HF).
  exists cx, cy, cz, cx', cy', cz'. split; [exact E|]. split; [exact E'|].
  split; [exact HF|].
  apply Forall2_cons_1 in HF as [Kx HF].
  apply Forall2_cons_1 in HF as [Ky HF].
  apply Forall2_cons_1 in HF as [Kz _].
  intros F m i j k.
  destruct (operators_scale dim l cx' cx Nl Kx F m i j k) as (A1 & A2 & _).
  destruct (operators_scale dim l cy' cy Nl Ky F m i j k) as (_ & _ & A3 & A4 & _).
  destruct (operators_scale dim l cz' cz Nl Kz F m i j k) as (_ & _ & _ & _ & A5 & A6).
  repeat apply conj; assumption.
Qed.

Lemma coefficient_bounds_XZ (dx dy dz : Q) (sx sy sz : list Q) :
  0 < dx -> 0 < dy -> 0 < dz ->
  exists cx cy cz,
    InitializeStencilCoefficients WARPX_DIM_XZ (dx, dy, dz) sx sy sz
      = Some (cx, cy, cz) /\
    (coef cx 0 == 1 / dx /\
     (3 # 4) * (1 / dx) <= coef cx 1 /\ coef cx 1 < 1 / dx /\
     0 < coef cx 3 /\ coef cx 3 <= (1 # 8) * (1 / dx)) /\
    (coef cz 0 == 1 / dz /\
     (3 # 4) * (1 / dz) <= coef cz 1 /\ coef cz 1 < 1 / dz /\
     0 < coef cz 2 /\ coef cz 2 <= (1 # 8) * (1 / dz)).
Proof.
  intros Hx Hy Hz.
  destruct (InitXZ_closed dx dy dz sx sy sz Hx Hy Hz) as (x5 & y5 & z5 & E).
  cbv zeta in E.
  eexists _, _, _. split; [exact E|]. clear E.
  assert (Hix : 0 < 1 / dx) by (apply Qpos_div; [reflexivity|assumption]).
  assert (Hiz : 0 < 1 / dz) by (apply Qpos_div; [reflexivity|assumption]).
  destruct (std_max_ge (1 / dx) (1 / dz)) as (Mx & Mz).
  set (delta := std_max (1 / dx) (1 / dz)) in *.
  destruct (ratio_bounds (1 / dx) delta Hix Mx) as [X0 X1].
  destruct (ratio_bounds (1 / dz) delta Hiz Mz) as [Z0 Z1].
  set (rx := 1 / dx / delta * (1 / dx / delta)) in *.
  set (rz := 1 / dz / delta * (1 / dz / delta)) in *.
  clearbody rx rz delta.
  unfold coef; cbn [nth].
  set (ix := 1 / dx) in *. set (iz := 1 / dz) in *. clearbody ix iz.
  split; (split; [reflexivity|]); repeat apply conj; nra.
Qed.

(** In exact arithmetic, for positive spacings the coefficients are a
    bounded perturbation of the centred-difference weights.  3-D, per
    axis: [alpha] lies strictly between 1/4 and 5/4 of the inverse
    spacing, each cross beta strictly between 0 and 1/8 of it, and the
    stored gamma coefficient within 1/16 of it in absolute value.  XZ, for
    x and z: [alpha] lies between 3/4 of the inverse spacing and the
    inverse spacing, the cross beta between 0 and 1/8 of it.  Rounding
    does not keep the strict bounds: see
    [strict_bounds_are_lost_in_binary64]. *)
Theorem coefficient_bounds (dx dy dz : Q) (sx sy sz : list Q) :
  0 < dx -> 0 < dy -> 0 < dz ->
  (exists cx cy cz,
     InitializeStencilCoefficients WARPX_DIM_3D (dx, dy, dz) sx sy sz
       = Some (cx, cy, cz) /\
     Forall2 (fun c d =>
       coef c 0 == 1 / d /\
       (1 # 4) * (1 / d) < coef c 1 /\ coef c 1 < (5 # 4) * (1 / d) /\
       0 < coef c 2 /\ coef c 2 < (1 # 8) * (1 / d) /\
       0 < coef c 3 /\ coef c 3 < (1 # 8) * (1 / d) /\
       - (1 # 16) * (1 / d) < coef c 4 /\ coef c 4 < (1 # 16) * (1 / d))
       [cx; cy; cz] [dx; dy; dz]) /\
  (exists cx cy cz,
     InitializeStencilCoefficients WARPX_DIM_XZ (dx, dy, dz) sx sy sz
       = Some (cx, cy, cz) /\
     (coef cx 0 == 1 / dx /\
      (3 # 4) * (1 / dx) <= coef cx 1 /\ coef cx 1 < 1 / dx /\
      0 < coef cx 3 /\ coef cx 3 <= (1 # 8) * (1 / dx)) /\
     (coef cz 0 == 1 / dz /\
      (3 # 4) * (1 / dz) <= coef cz 1 /\ coef cz 1 < 1 / dz /\
      0 < coef cz 2 /\ coef cz 2 <= (1 # 8) * (1 / dz))).
Proof.
  intros Hx Hy Hz. split.
  - apply coefficient_bounds_3D; assumption.
  - apply coefficient_bounds_XZ; assumption.
Qed.


(** ** Further properties of the transform *)

Section StoreFactsMore.

Context {Engine : Type}.
Implicit Types (w : World Engine).

Lemma peek_aos_poke_id_is_Some w t i z t' i' :
  is_Some (peek_aos (poke_id w t i z) t' i') <-> is_Some (peek_aos w t' i').
Proof.
  destruct (decide ((t, i) = (t', i'))) as [E|N].
  - inversion E; subst. rewrite peek_aos_poke_id_eq.
    destruct (peek_aos w t' i'); cbn; split; intros [? ?]; eauto; discriminate.
  - rewrite peek_aos_poke_id_ne by exact N. reflexivity.
Qed.

End StoreFactsMore.

Section TransformMore.

Context {Engine : Type}.
Variable m_e : Q.
Variable self : PairGenerationTransformFunc.t (Engine := Engine).
Variables dst1 dst2 src : nat.
Implicit Types (w : World Engine).

Local Abbreviation step := (transformed m_e self dst1 dst2 src).
Local Abbreviation answer := (sampled m_e self src).
Local Abbreviation call := (fun ev : Event =>
  PairGenerationTransformFunc.operator_call m_e self dst1 dst2 src
    (i_src ev) (i_dst1 ev) (i_dst2 ev)).

Lemma transformed_peek_is_Some (ev : Event) w t comp i :
  is_Some (peek (step ev w) t comp i) <-> is_Some (peek w t comp i).
Proof.
  unfold transformed. cbv zeta.
  rewrite peek_poke_id, !peek_poke_is_Some. reflexivity.
Qed.

Lemma transformed_peek_aos_is_Some (ev : Event) w t i :
  is_Some (peek_aos (step ev w) t i) <-> is_Some (peek_aos w t i).
Proof.
  unfold transformed. cbv zeta.
  rewrite peek_aos_poke_id_is_Some, !peek_aos_poke. reflexivity.
Qed.

Lemma transformed_engine (ev : Event) w :
  engine (step ev w) = snd (answer w (i_src ev)).
Proof. reflexivity. Qed.

(** In exact arithmetic, if every answer of the collaborator has daughter
    momenta summing to the momentum it was given, and the electron mass is
    not zero, then after one call the stored momenta of the two daughters
    sum, component by component, to the stored momentum of the photon.
    Rounding does not keep the sum: see
    [momentum_sum_rounds_in_binary64]. *)
Theorem transform_conserves_momentum (ev : Event) w :
  ~ m_e == 0 ->
  (forall (e : Engine) (px py pz : Q) (E B : Q * Q * Q) (wt : Q),
     let out := fst (PairGenerationTransformFunc.m_generate_functor self
                       e (px, py, pz) E B wt) in
     e_px out + p_px out == px /\ e_py out + p_py out == py /\
     e_pz out + p_pz out == pz) ->
  allocated w src (i_src ev) = true ->
  allocated w dst1 (i_dst1 ev) = true ->
  allocated w dst2 (i_dst2 ev) = true ->
  (dst1, i_dst1 ev) <> (dst2, i_dst2 ev) ->
  exists w' (ux uy uz ex ey ez px py pz : Q),
    call ev w = Some (tt, w') /\
    peek w src PIdx.ux (i_src ev) = Some ux /\
    peek w src PIdx.uy (i_src ev) = Some uy /\
    peek w src PIdx.uz (i_src ev) = Some uz /\
    peek w' dst1 PIdx.ux (i_dst1 ev) = Some ex /\
    peek w' dst1 PIdx.uy (i_dst1 ev) = Some ey /\
    peek w' dst1 PIdx.uz (i_dst1 ev) = Some ez /\
    peek w' dst2 PIdx.ux (i_dst2 ev) = Some px /\
    peek w' dst2 PIdx.uy (i_dst2 ev) = Some py /\
    peek w' dst2 PIdx.uz (i_dst2 ev) = Some pz /\
    ex + px == ux /\ ey + py == uy /\ ez + pz == uz.
Proof.
  intros Hme Hg Hs H1 H2 N12.
  destruct (transformed_dst1 m_e self dst1 dst2 src ev w H1 N12) as (_ & A2 & A3 & A4).
  destruct (transformed_dst2 m_e self dst1 dst2 src ev w H2) as (_ & B2 & B3 & B4).
  cbv zeta in *.
  pose proof Hs as Hs'. apply allocated_true in Hs' as [_ Hr].
  destruct (Hr PIdx.ux) as [ux Hux]; [unfold PIdx.ux; lia|].
  destruct (Hr PIdx.uy) as [uy Huy]; [unfold PIdx.uy; lia|].
  destruct (Hr PIdx.uz) as [uz Huz]; [unfold PIdx.uz; lia|].
  pose proof (Hg (engine w)
    (photon_attr src w (i_src ev) PIdx.ux * m_e)
    (photon_attr src w (i_src ev) PIdx.uy * m_e)
    (photon_attr src w (i_src ev) PIdx.uz * m_e)
    (photon_attr src w (i_src ev) PIdx.Ex, photon_attr src w (i_src ev) PIdx.Ey,
     photon_attr src w (i_src ev) PIdx.Ez)
    (photon_attr src w (i_src ev) PIdx.Bx, photon_attr src w (i_src ev) PIdx.By,
     photon_attr src w (i_src ev) PIdx.Bz)
    (photon_attr src w (i_src ev) PIdx.w)) as G.
  cbv zeta in G. fold (sampled m_e self src w (i_src ev)) in G.
  unfold photon_attr in G at 1 2 3. rewrite Hux, Huy, Huz in G.
  cbn [from_option Datatypes.id] in G. destruct G as (G1 & G2 & G3).
  exists (step ev w). eexists ux, uy, uz, _, _, _, _, _, _.
  split; [apply operator_call_run; assumption|].
  do 9 (split; [eassumption|]).
  repeat apply conj.
  - rewrite <- Qmult_plus_distr_l, G1. field. exact Hme.
  - rewrite <- Qmult_plus_distr_l, G2. field. exact Hme.
  - rewrite <- Qmult_plus_distr_l, G3. field. exact Hme.
Qed.

(** The transform leaves every answer of the filter as it was: it writes
    no runtime attribute.  In particular a photon whose id it has just set
    to -1 is still flagged by a filter that flagged it before; the filter
    looks at the optical depth only. *)
Theorem filter_answer_survives_transform (ev : Event) w :
  allocated w src (i_src ev) = true ->
  allocated w dst1 (i_dst1 ev) = true ->
  allocated w dst2 (i_dst2 ev) = true ->
  exists w',
    call ev w = Some (tt, w') /\
    (exists p, peek_aos w' src (i_src ev) = Some p /\ id p = (-1)%Z) /\
    forall (flt : PairGenerationFilterFunc.t) (ptd i : nat),
      PairGenerationFilterFunc.operator_call flt ptd i w'
      = match PairGenerationFilterFunc.operator_call flt ptd i w with
        | Some (b, _) => Some (b, w')
        | None => None
        end.
Proof.
  intros Hs H1 H2. exists (step ev w).
  split; [apply operator_call_run; assumption|]. split.
  - apply allocated_true in Hs as [[p Hp] _]. eexists.
    rewrite transformed_peek_aos_src, Hp. split; reflexivity.
  - intros flt ptd i.
    unfold PairGenerationFilterFunc.operator_call, mbind', read_runtime_rdata, ret.
    rewrite transformed_peek_runtime.
    destruct (peek_runtime w ptd _ i); reflexivity.
Qed.

(** The eight values written to the destination slots, and the state the
    random engine is left in, depend only on the ten real attributes of
    the photon and on the engine state: two stores that agree on these
    (and may differ in ids, positions, other particles and the previous
    content of the destination slots) receive the same daughters. *)
Theorem daughters_depend_on_photon_only (ev : Event) (w1 w2 : World Engine) :
  allocated w1 src (i_src ev) = true ->
  allocated w1 dst1 (i_dst1 ev) = true ->
  allocated w1 dst2 (i_dst2 ev) = true ->
  allocated w2 src (i_src ev) = true ->
  allocated w2 dst1 (i_dst1 ev) = true ->
  allocated w2 dst2 (i_dst2 ev) = true ->
  (dst1, i_dst1 ev) <> (dst2, i_dst2 ev) ->
  (forall comp, (comp < 10)%nat ->
     peek w1 src comp (i_src ev) = peek w2 src comp (i_src ev)) ->
  engine w1 = engine w2 ->
  exists w1' w2',
    call ev w1 = Some (tt, w1') /\ call ev w2 = Some (tt, w2') /\
    engine w1' = engine w2' /\
    forall comp, (comp < 4)%nat ->
      peek w1' dst1 comp (i_dst1 ev) = peek w2' dst1 comp (i_dst1 ev) /\
      peek w1' dst2 comp (i_dst2 ev) = peek w2' dst2 comp (i_dst2 ev).
Proof.
  intros As1 A11 A21 As2 A12 A22 N12 Hp He.
  exists (step ev w1), (step ev w2).
  split; [apply operator_call_run; assumption|].
  split; [apply operator_call_run; assumption|].
  assert (Hs : answer w1 (i_src ev) = answer w2 (i_src ev)).
  { unfold sampled, photon_attr. rewrite He.
    rewrite !Hp by (unfold PIdx.w, PIdx.ux, PIdx.uy, PIdx.uz, PIdx.Ex, PIdx.Ey,
      PIdx.Ez, PIdx.Bx, PIdx.By, PIdx.Bz; lia).
    reflexivity. }
  split; [rewrite !transformed_engine, Hs; reflexivity|].
  destruct (transformed_dst1 m_e self dst1 dst2 src ev w1 A11 N12) as (a1 & a2 & a3 & a4).
  destruct (transformed_dst1 m_e self dst1 dst2 src ev w2 A12 N12) as (b1 & b2 & b3 & b4).
  destruct (transformed_dst2 m_e self dst1 dst2 src ev w1 A21) as (c1 & c2 & c3 & c4).
  destruct (transformed_dst2 m_e self dst1 dst2 src ev w2 A22) as (d1 & d2 & d3 & d4).
  cbv zeta in *. rewrite Hs in *. pidx.
  intros comp Hc.
  destruct comp as [|[|[|[|comp]]]]; [..|lia]; split; congruence.
Qed.

(** The transform neither creates nor removes an array element: the same
    real attributes and the same structs exist before and after, every
    allocated slot stays allocated, and so the same call succeeds again on
    the resulting store (the functor does not test the id it set). *)
Theorem transform_keeps_every_slot (ev : Event) w :
  allocated w src (i_src ev) = true ->
  allocated w dst1 (i_dst1 ev) = true ->
  allocated w dst2 (i_dst2 ev) = true ->
  exists w',
    call ev w = Some (tt, w') /\
    (forall t comp i, is_Some (peek w' t comp i) <-> is_Some (peek w t comp i)) /\
    (forall t i, is_Some (peek_aos w' t i) <-> is_Some (peek_aos w t i)) /\
    (forall t i, allocated w t i = true -> allocated w' t i = true) /\
    call ev w' = Some (tt, step ev w').
Proof.
  intros Hs H1 H2. exists (step ev w).
  split; [apply operator_call_run; assumption|].
  split; [intros; apply transformed_peek_is_Some|].
  split; [intros; apply transformed_peek_aos_is_Some|].
  split; [intros; apply transformed_allocated; assumption|].
  apply operator_call_run; apply transformed_allocated; assumption.
Qed.

End TransformMore.

Section Aliasing.

Context {Engine : Type}.
Implicit Types (w : World Engine).

(** When both destinations are one and the same slot, the second block
    of writes overwrites the first: the slot ends up with the weight and
    momentum of the second daughter. *)
Theorem shared_destination_slot_keeps_second_daughter (m_e : Q)
  (self : PairGenerationTransformFunc.t) (dst src i_s i_d : nat) w :
  allocated w src i_s = true ->
  allocated w dst i_d = true ->
  exists w',
    PairGenerationTransformFunc.operator_call m_e self dst dst src i_s i_d i_d w
      = Some (tt, w') /\
    let out := fst (sampled m_e self src w i_s) in
    peek w' dst PIdx.w i_d = Some (p_w out) /\
    peek w' dst PIdx.ux i_d = Some (p_px out * (1 / m_e)) /\
    peek w' dst PIdx.uy i_d = Some (p_py out * (1 / m_e)) /\
    peek w' dst PIdx.uz i_d = Some (p_pz out * (1 / m_e)).
Proof.
  intros Hs Hd.
  exists (transformed m_e self dst dst src (mkEvent i_s i_d i_d) w).
  split.
  - apply (operator_call_run m_e self dst dst src (mkEvent i_s i_d i_d)); assumption.
  - apply (transformed_dst2 m_e self dst dst src (mkEvent i_s i_d i_d) w Hd).
Qed.

End Aliasing.

(** ** Further properties of the registries *)

Lemma slots_distinct_insert (m : gmap string Z) (name : string) (s : Z) (lo : Z) :
  slots_distinct m -> slots_within lo s m -> slots_distinct (<[name := s]> m).
Proof.
  intros Hd Hw n1 n2 v H1 H2.
  destruct (decide (name = n1)) as [<-|N1], (decide (name = n2)) as [<-|N2];
    [reflexivity| | |].
  - rewrite lookup_insert_eq in H1. rewrite lookup_insert_ne in H2 by exact N2.
    injection H1 as <-. apply Hw in H2. lia.
  - rewrite lookup_insert_eq in H2. rewrite lookup_insert_ne in H1 by exact N1.
    injection H2 as <-. apply Hw in H1. lia.
  - rewrite lookup_insert_ne in H1 by exact N1.
    rewrite lookup_insert_ne in H2 by exact N2. eapply Hd; eassumption.
Qed.

Lemma slots_within_insert (m : gmap string Z) (name : string) (lo s : Z) :
  (lo <= s)%Z -> slots_within lo s m -> slots_within lo (s + 1) (<[name := s]> m).
Proof.
  intros Hs Hw n v H. destruct (decide (name = n)) as [<-|N].
  - rewrite lookup_insert_eq in H. injection H as <-. lia.
  - rewrite lookup_insert_ne in H by exact N. apply Hw in H. lia.
Qed.

Section RegistryInvariant.

Import WarpXParticleContainer.
Variable WARPX_DIM_RZ : bool.

Lemma AddRealComp_wf (name : string) (comm : bool) (pc : t) :
  registry_wf WARPX_DIM_RZ pc ->
  registry_wf WARPX_DIM_RZ (AddRealComp WARPX_DIM_RZ name comm pc).
Proof.
  intros (D1 & W1 & D2 & W2 & C).
  unfold registry_wf, AddRealComp, AddRealComp_amrex, NumRealComps in *.
  cbn [particle_comps particle_runtime_comps m_num_runtime_real] in *.
  repeat apply conj.
  - eapply slots_distinct_insert; eassumption.
  - replace (Z.of_nat (PIdx.nattribs WARPX_DIM_RZ) + Z.of_nat (S (m_num_runtime_real pc)))%Z
      with (Z.of_nat (PIdx.nattribs WARPX_DIM_RZ) + Z.of_nat (m_num_runtime_real pc) + 1)%Z
      by lia.
    apply slots_within_insert; [lia|exact W1].
  - replace (Z.of_nat (PIdx.nattribs WARPX_DIM_RZ) + Z.of_nat (m_num_runtime_real pc)
             - Z.of_nat (PIdx.nattribs WARPX_DIM_RZ))%Z
      with (Z.of_nat (m_num_runtime_real pc)) by lia.
    eapply slots_distinct_insert; eassumption.
  - replace (Z.of_nat (PIdx.nattribs WARPX_DIM_RZ) + Z.of_nat (m_num_runtime_real pc)
             - Z.of_nat (PIdx.nattribs WARPX_DIM_RZ))%Z
      with (Z.of_nat (m_num_runtime_real pc)) by lia.
    replace (Z.of_nat (S (m_num_runtime_real pc)))
      with (Z.of_nat (m_num_runtime_real pc) + 1)%Z by lia.
    apply slots_within_insert; [lia|exact W2].
  - intros n v H. destruct (decide (name = n)) as [<-|N].
    + rewrite lookup_insert_eq in H. injection H as <-.
      rewrite lookup_insert_eq. f_equal. lia.
    + rewrite lookup_insert_ne in H by exact N.
      rewrite lookup_insert_ne by exact N. apply C, H.
Qed.

(** Registrations keep the real registry coherent: after any sequence of
    [AddRealComp] calls on a coherent registry, no two names share a slot
    in either map, every full slot is below the number of real components
    and every runtime slot below the number of runtime components, and
    each runtime entry is the full entry minus [PIdx::nattribs]. *)
Theorem registrations_keep_registry_coherent (names : list (string * bool)) :
  forall pc : t,
  registry_wf WARPX_DIM_RZ pc ->
  registry_wf WARPX_DIM_RZ (AddRealComps WARPX_DIM_RZ names pc).
Proof.
  induction names as [|[n c] names IH]; intros pc H.
  - exact H.
  - unfold AddRealComps in *. cbn [fold_left fst snd].
    apply IH, AddRealComp_wf, H.
Qed.

End RegistryInvariant.

Ltac in_table H :=
  apply elem_of_list_to_map_2 in H; vm_compute in H;
  repeat (apply elem_of_cons in H as [H|H]);
  [..|apply elem_of_nil in H; destruct H].

Lemma to_index_distinct (rz : bool) : slots_distinct (ParticleStringNames.to_index rz).
Proof.
  intros n1 n2 v H1 H2. unfold ParticleStringNames.to_index in *.
  destruct rz; in_table H1; in_table H2; congruence.
Qed.

Lemma to_index_within (rz : bool) :
  slots_within 0 (Z.of_nat (PIdx.nattribs rz)) (ParticleStringNames.to_index rz).
Proof.
  intros n v H. unfold ParticleStringNames.to_index in *.
  destruct rz; in_table H; injection H as -> ->; cbn; lia.
Qed.

Lemma to_index_onto (rz : bool) (v : Z) :
  (0 <= v < Z.of_nat (PIdx.nattribs rz))%Z ->
  exists n, ParticleStringNames.to_index rz !! n = Some v.
Proof.
  intros Hv.
  exists (nth (Z.to_nat v)
            ["w"; "ux"; "uy"; "uz"; "Ex"; "Ey"; "Ez"; "Bx"; "By"; "Bz"; "theta"]
            "")%string.
  assert (Hn : v = Z.of_nat (Z.to_nat v)) by lia.
  assert (Hb : (Z.to_nat v < PIdx.nattribs rz)%nat) by lia.
  rewrite Hn at 2. clear Hn Hv. revert Hb. generalize (Z.to_nat v). intros k Hk.
  destruct rz; cbn in Hk;
    do 11 (destruct k as [|k];
          [first [exfalso; lia | vm_compute; reflexivity]|]); lia.
Qed.

Section StartingRegistry.

Import WarpXParticleContainer.

Lemma table_container_wf (rz : bool) : registry_wf rz (table_container rz).
Proof.
  unfold registry_wf, table_container, NumRealComps.
  cbn [particle_comps particle_runtime_comps m_num_runtime_real].
  split; [apply to_index_distinct|].
  split; [rewrite Z.add_0_r; apply to_index_within|].
  split; [intros n1 n2 v H; rewrite lookup_empty in H; discriminate H|].
  split; [intros n v H; rewrite lookup_empty in H; discriminate H|].
  intros n v H; rewrite lookup_empty in H; discriminate H.
Qed.

(** [ParticleStringNames::to_index] numbers the compile-time attributes:
    distinct names have distinct indices, the indices are exactly those
    below [PIdx::nattribs] (with and without [theta]), and a container
    whose [particle_comps] is this table and which has no runtime
    component has a coherent registry. *)
Theorem to_index_numbers_the_attributes (rz : bool) :
  slots_distinct (ParticleStringNames.to_index rz) /\
  slots_within 0 (Z.of_nat (PIdx.nattribs rz)) (ParticleStringNames.to_index rz) /\
  (forall v, (0 <= v < Z.of_nat (PIdx.nattribs rz))%Z ->
     exists n, ParticleStringNames.to_index rz !! n = Some v) /\
  registry_wf rz (table_container rz).
Proof.
  split; [apply to_index_distinct|].
  split; [apply to_index_within|].
  split; [apply to_index_onto|].
  apply table_container_wf.
Qed.

End StartingRegistry.

Section IntRegistration.

Import WarpXParticleContainerInt.

Lemma AddIntComp_count (name : string) (comm : bool) (pc : t) :
  NumIntComps (AddIntComp name comm pc) = (NumIntComps pc + 1)%Z.
Proof.
  unfold NumIntComps, AddIntComp, AddIntComp_amrex.
  cbn [m_num_runtime_int]. lia.
Qed.

Lemma AddIntComps_count (names : list (string * bool)) : forall pc : t,
  NumIntComps (AddIntComps names pc)
    = (NumIntComps pc + Z.of_nat (length names))%Z.
Proof.
  induction names as [|[n c] names IH]; intros pc.
  - cbn. lia.
  - unfold AddIntComps in *. cbn [fold_left fst snd length].
    rewrite IH, AddIntComp_count. lia.
Qed.

(** [AddIntComp (name)] binds [name] to the same slot in both integer
    maps, the number of integer components existing at that time; the slot
    is not negative; each registration raises the next slot by one; other
    names keep their entries; and if the two maps were equal before, they
    are equal after. *)
Theorem AddIntComp_slots (name : string) (comm : bool) (pc : t) :
  let slot := NumIntComps pc in
  let pc1 := AddIntComp name comm pc in
  particle_icomps pc1 !! name = Some slot /\
  particle_runtime_icomps pc1 !! name = Some slot /\
  (0 <= slot)%Z /\
  (forall later : list (string * bool),
     NumIntComps (AddIntComps later pc1) = (slot + 1 + Z.of_nat (length later))%Z) /\
  (forall other, other <> name ->
     particle_icomps pc1 !! other = particle_icomps pc !! other /\
     particle_runtime_icomps pc1 !! other = particle_runtime_icomps pc !! other) /\
  (particle_icomps pc = particle_runtime_icomps pc ->
   particle_icomps pc1 = particle_runtime_icomps pc1).
Proof.
  cbv zeta.
  split; [|split; [|split; [|split]]].
  - unfold AddIntComp, AddIntComp_amrex. cbn [particle_icomps].
    apply lookup_insert_eq.
  - unfold AddIntComp, AddIntComp_amrex. cbn [particle_runtime_icomps].
    rewrite lookup_insert_eq. f_equal. unfold NumIntComps. cbn. lia.
  - unfold NumIntComps. lia.
  - intros later. rewrite AddIntComps_count, AddIntComp_count. reflexivity.
  - split.
    + intros other N. unfold AddIntComp, AddIntComp_amrex.
      cbn [particle_icomps particle_runtime_icomps].
      rewrite !lookup_insert_ne by congruence. split; reflexivity.
    + intros E. unfold AddIntComp, AddIntComp_amrex.
      cbn [particle_icomps particle_runtime_icomps]. rewrite E.
      f_equal. unfold NumIntComps. cbn. lia.
Qed.

End IntRegistration.

(** ** The further properties on concrete inputs *)

Lemma stencil_reads_one_cell_halo_witness :
  (forall a b c, halo WARPX_DIM_3D 0 0 0 a b c ->
     linear_x 1 a b c = clipped_linear a b c) /\
  UpwardDx WARPX_DIM_3D (linear_x 1) [1; 1; 0; 0; 0; 0] 6 0 0 0
    = UpwardDx WARPX_DIM_3D clipped_linear [1; 1; 0; 0; 0; 0] 6 0 0 0.
Proof.
  assert (H : forall a b c, halo WARPX_DIM_3D 0 0 0 a b c ->
                linear_x 1 a b c = clipped_linear a b c).
  { intros a b c (Ha & _). unfold linear_x, clipped_linear.
    destruct (Z.leb_spec (Z.abs a) 5); [reflexivity|lia]. }
  split; [exact H|].
  exact (proj1 (stencil_reads_one_cell_halo WARPX_DIM_3D (linear_x 1)
                  clipped_linear [1; 1; 0; 0; 0; 0] 6 0 0 0 H)).
Defined.

Lemma derivative_exact_on_affine_fields_witness :
  (0 < 1 /\ 0 < 2 /\ 0 < 3) /\
  exists cx cy cz,
    InitializeStencilCoefficients WARPX_DIM_3D (1, 2, 3) [] [] []
      = Some (cx, cy, cz) /\
    UpwardDy WARPX_DIM_3D (affine_field 2 3 5 7 1 2 3) cy 6 4 0 (-4) == 3.
Proof.
  split; [repeat split|].
  destruct (derivative_exact_on_affine_fields 1 2 3 [] [] [] 2 3 5 7
              eq_refl eq_refl eq_refl) as [(cx & cy & cz & E & H) _].
  exists cx, cy, cz. split; [exact E|].
  exact (proj1 (proj2 (proj2 (H 6%Z 4%Z 0%Z (-4)%Z)))).
Defined.

Lemma builder_output_shape_witness :
  exists cx cy cz,
    InitializeStencilCoefficients WARPX_DIM_XZ (1, 1, 2) [7; 7; 7; 7; 7; 7; 7] [] []
      = Some (cx, cy, cz) /\
    length cx = 6%nat /\
    InitializeStencilCoefficients WARPX_DIM_XZ (1, 1, 2) cx cy cz
      = Some (cx, cy, cz).
Proof.
  destruct (InitializeStencilCoefficients WARPX_DIM_XZ (1, 1, 2)
              [7; 7; 7; 7; 7; 7; 7] [] []) as [[[cx cy] cz]|] eqn:E;
    [|vm_compute in E; discriminate E].
  exists cx, cy, cz. split; [reflexivity|].
  destruct (builder_output_shape WARPX_DIM_XZ (1, 1, 2)
              [7; 7; 7; 7; 7; 7; 7] [] [] cx cy cz E) as ((L & _) & _ & K).
  split; assumption.
Defined.

Lemma coefficient_bounds_witness :
  (0 < 1 /\ 0 < 2 /\ 0 < 3) /\
  exists cx cy cz,
    InitializeStencilCoefficients WARPX_DIM_3D (1, 2, 3) [] [] []
      = Some (cx, cy, cz) /\
    (1 # 4) * (1 / 1) < coef cx 1 /\ coef cx 1 < (5 # 4) * (1 / 1).
Proof.
  split; [repeat split|].
  destruct (coefficient_bounds 1 2 3 [] [] [] eq_refl eq_refl eq_refl)
    as [(cx & cy & cz & E & H) _].
  exists cx, cy, cz. split; [exact E|].
  apply Forall2_cons_1 in H as [(_ & A0 & A1 & _) _]. split; assumption.
Defined.

(** The bounds above are bounds of exact arithmetic.  In binary64, for
    the spacings [(1, 1e9, 1)] the stored [betaxz] is exactly [1/8] of the
    inverse spacing, not below it; and for [(1, 2^600, 2^600)] the stored
    [alphax] is NaN, which lies between no two numbers. *)
Lemma strict_bounds_are_lost_in_binary64 :
  (let '(cx, _, _) :=
     Binary64.InitializeStencilCoefficients WARPX_DIM_3D (1, 1e9, 1) [] [] [] in
   cx !! 0%nat = Some 1 /\ cx !! 3%nat = Some 0.125 /\
   (0.125 <? 0.125 * 1) = false)%float /\
  (let '(cx, _, _) :=
     Binary64.InitializeStencilCoefficients WARPX_DIM_3D
       (1, 0x1p600, 0x1p600) [] [] [] in
   cx !! 0%nat = Some 1 /\ cx !! 1%nat = Some nan /\
   (0.25 * 1 <? nan) = false /\ (nan <? 1.25 * 1) = false)%float.
Proof.
  split; vm_compute; repeat apply conj; reflexivity.
Qed.

Lemma coefficients_scale_with_spacing_witness :
  (0 < 2 /\ 0 < 1 /\ 0 < 2 /\ 0 < 3) /\
  exists cx cy cz cx' cy' cz',
    InitializeStencilCoefficients WARPX_DIM_3D (1, 2, 3) [] [] []
      = Some (cx, cy, cz) /\
    InitializeStencilCoefficients WARPX_DIM_3D (2 * 1, 2 * 2, 2 * 3) [] [] []
      = Some (cx', cy', cz') /\
    coef cx' 1 == coef cx 1 / 2.
Proof.
  split; [repeat split|].
  destruct (coefficients_scale_with_spacing WARPX_DIM_3D 2 1 2 3 [] [] []
              eq_refl eq_refl eq_refl eq_refl)
    as (cx & cy & cz & cx' & cy' & cz' & E & E' & H & _).
  exists cx, cy, cz, cx', cy', cz'. split; [exact E|]. split; [exact E'|].
  apply Forall2_cons_1 in H as [H _]. apply H. lia.
Defined.

Lemma transform_conserves_momentum_witness :
  (~ electron_mass == 0 /\
   allocated (example_world 1) 2 0 = true /\
   allocated (example_world 1) 0 0 = true /\
   allocated (example_world 1) 1 0 = true) /\
  exists w' (ex px : Q),
    PairGenerationTransformFunc.operator_call electron_mass
      (PairGenerationTransformFunc.mk splitting_double) 0 1 2 0 0 0
      (example_world 1) = Some (tt, w') /\
    peek w' 0 PIdx.ux 0 = Some ex /\ peek w' 1 PIdx.ux 0 = Some px /\
    ex + px == 2.
Proof.
  assert (Hme : ~ electron_mass == 0) by (intros H; discriminate H).
  split; [repeat split; exact Hme|].
  destruct (transform_conserves_momentum electron_mass
              (PairGenerationTransformFunc.mk splitting_double) 0 1 2
              (mkEvent 0 0 0) (example_world 1) Hme
              ltac:(intros; cbn; repeat split; field)
              eq_refl eq_refl eq_refl ltac:(discriminate))
    as (w' & ux & uy & uz & ex & ey & ez & px & py & pz
        & Hrun & Hux & _ & _ & Hex & _ & _ & Hpx & _ & _ & Hs & _).
  exists w', ex, px. split; [exact Hrun|]. split; [exact Hex|].
  split; [exact Hpx|].
  assert (E : ux = 2) by (vm_compute in Hux; congruence).
  rewrite Hs, E. reflexivity.
Defined.

(** The conservation above is a statement of exact arithmetic.  In
    binary64, with the halving collaborator, whose daughters sum to the
    momentum it is given, and the photon of momentum [(2, 4, 6)], the two
    stored z components are [3.0000000000000004] each and sum to
    [6.000000000000001], not to the stored [6]. *)
Lemma momentum_sum_rounds_in_binary64 :
  match Binary64.PairGenerationTransformFunc.operator_call
          Binary64.electron_mass
          (Binary64.PairGenerationTransformFunc.mk Binary64.halving_double)
          0 1 2 0 0 0 (Binary64.example_world 1) with
  | Some s' =>
      match Binary64.read_rdata s' 0 PIdx.uz 0,
            Binary64.read_rdata s' 1 PIdx.uz 0 with
      | Some ez, Some pz =>
          (ez + pz = 0x1.8000000000001p+2 /\ ez + pz <> 6)%float
      | _, _ => False
      end
  | None => False
  end.
Proof.
  vm_compute. split; [reflexivity | intros H; discriminate H].
Qed.

Lemma filter_answer_survives_transform_witness :
  (allocated (example_world 1) 2 0 = true /\
   allocated (example_world 1) 0 0 = true /\
   allocated (example_world 1) 1 0 = true) /\
  exists w',
    PairGenerationTransformFunc.operator_call electron_mass
      (PairGenerationTransformFunc.mk splitting_double) 0 1 2 0 0 0
      (example_world 1) = Some (tt, w') /\
    (exists p, peek_aos w' 2 0 = Some p /\ id p = (-1)%Z) /\
    PairGenerationFilterFunc.operator_call (PairGenerationFilterFunc.mk 0) 2 0 w'
      = Some (true, w').
Proof.
  split; [repeat split|].
  destruct (filter_answer_survives_transform electron_mass
              (PairGenerationTransformFunc.mk splitting_double) 0 1 2
              (mkEvent 0 0 0) (example_world 1) eq_refl eq_refl eq_refl)
    as (w' & Hrun & Hid & Hf).
  exists w'. split; [exact Hrun|]. split; [exact Hid|].
  rewrite Hf. reflexivity.
Defined.

Lemma daughters_depend_on_photon_only_witness :
  (allocated used_world 0 0 = true /\ engine (example_world 1) = engine used_world) /\
  exists w1' w2',
    PairGenerationTransformFunc.operator_call electron_mass
      (PairGenerationTransformFunc.mk splitting_double) 0 1 2 0 0 0
      (example_world 1) = Some (tt, w1') /\
    PairGenerationTransformFunc.operator_call electron_mass
      (PairGenerationTransformFunc.mk splitting_double) 0 1 2 0 0 0
      used_world = Some (tt, w2') /\
    peek w1' 0 PIdx.w 0 = peek w2' 0 PIdx.w 0.
Proof.
  split; [split; reflexivity|].
  destruct (daughters_depend_on_photon_only electron_mass
              (PairGenerationTransformFunc.mk splitting_double) 0 1 2
              (mkEvent 0 0 0) (example_world 1) used_world
              eq_refl eq_refl eq_refl eq_refl eq_refl eq_refl
              ltac:(discriminate) ltac:(intros; reflexivity) eq_refl)
    as (w1' & w2' & H1 & H2 & _ & H).
  exists w1', w2'. split; [exact H1|]. split; [exact H2|].
  exact (proj1 (H 0%nat ltac:(lia))).
Defined.

Lemma transform_keeps_every_slot_witness :
  (allocated (example_world 1) 2 0 = true /\
   allocated (example_world 1) 0 0 = true /\
   allocated (example_world 1) 1 0 = true) /\
  exists w' w'',
    PairGenerationTransformFunc.operator_call electron_mass
      (PairGenerationTransformFunc.mk splitting_double) 0 1 2 0 0 0
      (example_world 1) = Some (tt, w') /\
    PairGenerationTransformFunc.operator_call electron_mass
      (PairGenerationTransformFunc.mk splitting_double) 0 1 2 0 0 0
      w' = Some (tt, w'') /\
    allocated w' 2 1 = true.
Proof.
  split; [repeat split|].
  destruct (transform_keeps_every_slot electron_mass
              (PairGenerationTransformFunc.mk splitting_double) 0 1 2
              (mkEvent 0 0 0) (example_world 1) eq_refl eq_refl eq_refl)
    as (w' & Hrun & _ & _ & Ha & Hagain).
  exists w', (transformed electron_mass
                (PairGenerationTransformFunc.mk splitting_double) 0 1 2
                (mkEvent 0 0 0) w').
  split; [exact Hrun|]. split; [exact Hagain|]. apply Ha. reflexivity.
Defined.

Lemma shared_destination_slot_keeps_second_daughter_witness :
  (allocated (example_world 1) 2 1 = true /\
   allocated (example_world 1) 0 0 = true) /\
  exists w',
    PairGenerationTransformFunc.operator_call electron_mass
      (PairGenerationTransformFunc.mk halving_double) 0 0 2 1 0 0
      (example_world 1) = Some (tt, w') /\
    peek w' 0 PIdx.w 0 = Some 1.
Proof.
  split; [repeat split|].
  destruct (shared_destination_slot_keeps_second_daughter electron_mass
              (PairGenerationTransformFunc.mk halving_double) 0 2 1 0
              (example_world 1) eq_refl eq_refl) as (w' & Hrun & Hw & _).
  exists w'. split; [exact Hrun|]. exact Hw.
Defined.

Lemma registrations_keep_registry_coherent_witness :
  registry_wf false (table_container false) /\
  registry_wf false
    (WarpXParticleContainer.AddRealComps false
       [("optical_depth_BW"%string, true); ("xold"%string, true);
        ("optical_depth_BW"%string, true)]
       (table_container false)).
Proof.
  split; [apply table_container_wf|].
  apply (registrations_keep_registry_coherent false).
  apply table_container_wf.
Defined.

Lemma to_index_numbers_the_attributes_witness :
  (0 <= 10 < Z.of_nat (PIdx.nattribs true))%Z /\
  exists n, ParticleStringNames.to_index true !! n = Some 10%Z.
Proof.
  split; [cbn; lia|].
  destruct (to_index_numbers_the_attributes true) as (_ & _ & H & _).
  apply H. cbn. lia.
Defined.

Lemma AddIntComp_slots_witness :
  WarpXParticleContainerInt.particle_icomps empty_int_registry
    = WarpXParticleContainerInt.particle_runtime_icomps empty_int_registry /\
  WarpXParticleContainerInt.particle_icomps
    (WarpXParticleContainerInt.AddIntComp "ionization_level" true empty_int_registry)
  = WarpXParticleContainerInt.particle_runtime_icomps
    (WarpXParticleContainerInt.AddIntComp "ionization_level" true empty_int_registry).
Proof.
  split; [reflexivity|].
  destruct (AddIntComp_slots "ionization_level" true empty_int_registry)
    as (_ & _ & _ & _ & _ & H).
  apply H. reflexivity.
Defined.
